(** * NextWord: token distribution and selection engine

    A shallow embedding of [adapter_hf.py] (display formatting, context
    window cap, soft logit bias, top-k ranking, greedy / stochastic-nucleus
    selection) and of the [/next_dist] and [/step] handlers of [main.py].

    Conventions of the embedding:
    - a Python [str] is the list of its Unicode code points ([pystr]), so
      that [len], [isspace] and [count] count characters, as in Python;
    - [torch] tensors of floats are lists of real numbers: [exp], [ln] and
      the field operations are the mathematical ones and rounding is not
      modelled;
    - the tokenizer, the language model, [torch.topk], [torch.sort] and
      [torch.multinomial] are collaborators of the code: they are fields of
      the adapter record or operations of the class [Torch], constrained
      only by what their documentation promises ([TorchSpec]);
    - a Python exception is a value of [exn]; a function that may raise
      returns [Result]. *)

From Stdlib Require Import String Ascii.
From Stdlib Require Import Reals Lra Lia List ZArith NArith Bool.
From Stdlib Require Import Sorted Permutation.
Import ListNotations.

(** ** Python strings *)

Definition pystr := list N.

(** An ASCII literal of the source as a Python string. *)
Definition py (s : string) : pystr :=
  map N_of_ascii (list_ascii_of_string s).

Definition pystr_eqb (a b : pystr) : bool :=
  if list_eq_dec N.eq_dec a b then true else false.

(** [str.isspace] of CPython: the characters of bidirectional type WS, B or
    S, or of category Zs. *)
Definition char_isspace (c : N) : bool :=
  ((9 <=? c) && (c <=? 13) || (28 <=? c) && (c <=? 32)
   || (c =? 0x85) || (c =? 0xA0) || (c =? 0x1680)
   || (0x2000 <=? c) && (c <=? 0x200A)
   || (c =? 0x2028) || (c =? 0x2029) || (c =? 0x202F)
   || (c =? 0x205F) || (c =? 0x3000))%N.

Definition isspace (s : pystr) : bool :=
  match s with
  | [] => false
  | _ => forallb char_isspace s
  end.

(** [s.count(c)] for a one-character needle. *)
Definition count (c : N) (s : pystr) : nat :=
  List.length (filter (N.eqb c) s).

(** [unicodedata.category(char) == 'Cc']: U+0000..U+001F and U+007F..U+009F. *)
Definition category_Cc (c : N) : bool :=
  ((c <=? 0x1F) || (0x7F <=? c) && (c <=? 0x9F))%N.

(** Digits of [n] in [base], most significant first. *)
Fixpoint digits_fuel (base : N) (fuel : nat) (n : N) (acc : list N) : list N :=
  match fuel with
  | O => acc
  | S fuel' =>
      let acc' := (n mod base)%N :: acc in
      if (n / base =? 0)%N then acc' else digits_fuel base fuel' (n / base)%N acc'
  end.

Definition digits (base n : N) : list N :=
  digits_fuel base (S (N.size_nat n)) n [].

(** The character of a digit, upper case above nine. *)
Definition digit_char (d : N) : N :=
  (if d <? 10 then 48 + d else 55 + d)%N.

(** [f'{n}'] for a non-negative integer. *)
Definition format_d (n : N) : pystr := map digit_char (digits 10 n).

(** [f'{n:04X}']: upper-case hexadecimal, zero-padded to four characters. *)
Definition format_04X (n : N) : pystr :=
  let ds := map digit_char (digits 16 n) in
  repeat 48%N (4 - List.length ds) ++ ds.

(** ** Exceptions *)

Inductive exn : Type :=
| ValueError (msg : pystr)
| IndexError (msg : pystr)
| RuntimeError (msg : pystr).

Definition Result (A : Type) : Type := (exn + A)%type.

Definition raise {A : Type} (e : exn) : Result A := inl e.
Definition ret {A : Type} (a : A) : Result A := inr a.
Definition bind {A B : Type} (m : Result A) (f : A -> Result B) : Result B :=
  match m with
  | inl e => inl e
  | inr a => f a
  end.

Declare Scope result_scope.
Delimit Scope result_scope with result.
Notation "x <- m ;; k" := (bind m (fun x => k))
  (at level 61, m at next level, right associativity) : result_scope.

(** [str(e)] of an exception. *)
Definition str_exn (e : exn) : pystr :=
  match e with
  | ValueError m | IndexError m | RuntimeError m => m
  end.

(** ** [make_token_display] *)

Definition SYM_SPACE : N := 0x2420.   (* the symbol for space *)
Definition SYM_TIMES : N := 0xD7.     (* the multiplication sign *)
Definition SYM_RETURN : N := 0x23CE.  (* the return symbol *)
Definition SYM_TAB : N := 0x21E5.     (* rightwards arrow to bar *)
Definition SYM_CR : N := 0x240D.      (* the symbol for carriage return *)
Definition SYM_LBRACKET : N := 0x27E6. (* left white square bracket *)
Definition SYM_RBRACKET : N := 0x27E7. (* right white square bracket *)

(** One turn of the loop over [raw_text]: what is appended for [char]. *)
Definition display_char (char : N) : pystr :=
  if category_Cc char then
    if (char =? 10)%N then SYM_RETURN :: py "\n"
    else if (char =? 9)%N then SYM_TAB :: py "\t"
    else if (char =? 13)%N then SYM_CR :: py "\r"
    else [SYM_LBRACKET] ++ py "U+" ++ format_04X char ++ [SYM_RBRACKET]
  else if (char =? 32)%N then [SYM_SPACE]
  else [char].

Definition make_token_display (raw_text : pystr) : pystr :=
  match raw_text with
  | [] => raw_text
  | _ =>
      if isspace raw_text then
        let space_count := count 32%N raw_text in
        if Nat.eqb space_count (List.length raw_text) then
          if Nat.eqb space_count 1 then [SYM_SPACE]
          else [SYM_SPACE; SYM_TIMES] ++ format_d (N.of_nat space_count)
        else [SYM_SPACE; SYM_TIMES] ++ format_d (N.of_nat (List.length raw_text))
      else List.concat (map display_char raw_text)
  end.

(** ** What a display label is made of *)

(** A character a label may show as it is: no control character and no
    ASCII space. *)
Definition display_safe (c : N) : bool :=
  negb (category_Cc c) && negb (c =? 32)%N.

(** [int(s)] for a string of decimal digits. *)
Definition parse_decimal (s : pystr) : N :=
  fold_left (fun acc c => (10 * acc + (c - 48))%N) s 0%N.

(** The number whose digits in base [base] are [ds], most significant
    first. *)
Definition digits_value (base : N) (ds : list N) : N :=
  fold_left (fun acc d => (acc * base + d)%N) ds 0%N.

(** ** Numbers, lists and tensors *)

Open Scope R_scope.

Definition Rsum (xs : list R) : R := fold_right Rplus 0 xs.

(** [torch.softmax(x, dim=-1)]. *)
Definition softmax (xs : list R) : list R :=
  let z := Rsum (map exp xs) in
  map (fun x => exp x / z) xs.

(** [torch.log_softmax(x, dim=-1)]: each entry minus the log of the sum of
    the exponentials. *)
Definition logsumexp (xs : list R) : R := ln (Rsum (map exp xs)).

Definition log_softmax (xs : list R) : list R :=
  let lse := logsumexp xs in
  map (fun x => x - lse) xs.

(** The comparison [x <= y] of two tensor entries, as a boolean. *)
Definition Rleb (x y : R) : bool := if Rle_dec x y then true else false.

(** [torch.cumsum(x, dim=-1)]. *)
Fixpoint cumsum_from (acc : R) (xs : list R) : list R :=
  match xs with
  | [] => []
  | x :: xs' => (acc + x) :: cumsum_from (acc + x) xs'
  end.

Definition cumsum (xs : list R) : list R := cumsum_from 0 xs.

(** The entries of a tensor with their positions: [(value, index)]. *)
Definition enumerate (xs : list R) : list (R * nat) :=
  combine xs (seq 0 (List.length xs)).

(** [xs[i]], raising [IndexError] out of range. *)
Definition index {A : Type} (xs : list A) (i : nat) : Result A :=
  match nth_error xs i with
  | Some x => ret x
  | None => raise (IndexError (py "index out of range"))
  end.

Fixpoint set_nth {A : Type} (i : nat) (v : A) (l : list A) : list A :=
  match l, i with
  | [], _ => []
  | _ :: l', O => v :: l'
  | x :: l', S i' => x :: set_nth i' v l'
  end.

(** [xs[i] = v], raising [IndexError] out of range. *)
Definition assign {A : Type} (xs : list A) (i : nat) (v : A) : Result (list A) :=
  match nth_error xs i with
  | Some _ => ret (set_nth i v xs)
  | None => raise (IndexError (py "index out of range"))
  end.

(** [torch.argmax(x)]: the index of the first maximal value. *)
Fixpoint argmax_from (i best : nat) (best_value : R) (xs : list R) : nat :=
  match xs with
  | [] => best
  | x :: xs' =>
      if Rlt_dec best_value x then argmax_from (S i) i x xs'
      else argmax_from (S i) best best_value xs'
  end.

Definition argmax (xs : list R) : Result nat :=
  match xs with
  | [] => raise (RuntimeError (py "argmax of an empty tensor"))
  | x :: xs' => ret (argmax_from 1 0 x xs')
  end.

(** [l.sort(key=key, reverse=True)]: the stable sort of Python, descending;
    entries with equal keys keep their order. *)
Fixpoint insert_reverse {A : Type} (key : A -> R) (x : A) (l : list A) : list A :=
  match l with
  | [] => [x]
  | y :: l' =>
      if Rlt_dec (key x) (key y) then y :: insert_reverse key x l'
      else x :: l
  end.

Definition sort_reverse {A : Type} (key : A -> R) (l : list A) : list A :=
  fold_right (insert_reverse key) [] l.

(** [for i in range(n)], collecting what the body appends. *)
Fixpoint for_range {A : Type} (body : nat -> Result A) (range : list nat) : Result (list A) :=
  match range with
  | [] => ret []
  | i :: range' =>
      (x <- body i ;;
       rest <- for_range body range' ;;
       ret (x :: rest))%result
  end.

(** ** The part of [torch] the adapter calls

    [torch_topk x k] is [torch.topk(x, k, dim=-1)] as pairs [(value, index)];
    [torch_sort_descending x] is [torch.sort(x, descending=True)], as pairs
    too; [torch_multinomial g p] is [torch.multinomial(p, num_samples=1)]
    drawn with the generator state [g]. *)

Class Torch : Type := {
  Generator : Type;
  torch_topk : list R -> nat -> Result (list (R * nat));
  torch_sort_descending : list R -> list (R * nat);
  torch_multinomial : Generator -> list R -> Result nat
}.

(** The order of a list sorted on [key] with [reverse=True]. *)
Definition by_key {A : Type} (key : A -> R) (a b : A) : Prop := key a >= key b.

Definition descending (a b : R * nat) : Prop := fst a >= fst b.

(** What the documentation of [torch.topk] promises of the [k] pairs it
    returns for a tensor [xs] of at least [k] entries. The order of entries
    of equal value is not part of it. *)
Record topk_post (xs : list R) (k : nat) (res : list (R * nat)) : Prop := {
  topk_length : List.length res = k;
  topk_entries : forall v i, In (v, i) res -> nth_error xs i = Some v;
  topk_distinct : NoDup (map snd res);
  topk_sorted : StronglySorted descending res;
  topk_largest :
    forall j x, nth_error xs j = Some x -> ~ In j (map snd res) ->
                forall v i, In (v, i) res -> x <= v
}.

Record TorchSpec (T : Torch) : Prop := {
  topk_out_of_range :
    forall xs k, (List.length xs < k)%nat -> exists e, torch_topk xs k = inl e;
  topk_in_range :
    forall xs k, (k <= List.length xs)%nat ->
                 exists res, torch_topk xs k = inr res /\ topk_post xs k res;
  sort_permutation :
    forall xs, Permutation (torch_sort_descending xs) (enumerate xs);
  sort_sorted :
    forall xs, StronglySorted descending (torch_sort_descending xs)
}.

(** ** [adapter_hf.py]: the adapter *)

(** The dictionaries [topk] and [choose] build. Only [choose] sets
    ["surprisal"]. *)
Module TokenDict.
Record t : Type := make {
  token_id : nat;
  token_text : pystr;
  token_text_raw : pystr;
  token_text_display : pystr;
  prob : R;
  logprob : R;
  surprisal : option R
}.
End TokenDict.

Module TokenizeResult.
Record t : Type := make {
  ids : list nat;
  tokens : list pystr
}.
End TokenizeResult.

(** The state of a loaded adapter: its tokenizer and its model.
    [encode text] is [tokenizer.encode(text, add_special_tokens=False)],
    [decode id] is [tokenizer.decode([id], clean_up_tokenization_spaces=False)],
    [token_string id] is [convert_tokens_to_string] of [convert_ids_to_tokens],
    [last_logits ids] is [model(input_ids).logits[0, -1, :]]. *)
Module HuggingFaceAdapter.
Record t : Type := make {
  model_name : pystr;
  encode : pystr -> list nat;
  decode : nat -> pystr;
  token_string : nat -> pystr;
  eos_token_id : option nat;
  vocab_size : nat;
  last_logits : list nat -> list R
}.
End HuggingFaceAdapter.

Definition CONTEXT_CAP_TOKENS : nat := 512.
Definition TOP_K_MIN : Z := 5.
Definition TOP_K_MAX : Z := 30.

(** [ids[-n:]] for a positive [n]. *)
Definition last_n {A : Type} (n : nat) (l : list A) : list A :=
  skipn (List.length l - n) l.

Definition tokenize (self : HuggingFaceAdapter.t) (text : pystr) : TokenizeResult.t :=
  let encoded := HuggingFaceAdapter.encode self text in
  let ids := encoded in
  let ids :=
    if (CONTEXT_CAP_TOKENS <? List.length ids)%nat then last_n CONTEXT_CAP_TOKENS ids
    else ids in
  let tokens := map (HuggingFaceAdapter.token_string self) ids in
  TokenizeResult.make ids tokens.

(** The truth value of an [Optional[bool]]. *)
Definition truthy (b : option bool) : bool :=
  match b with
  | Some true => true
  | _ => false
  end.

(** [logits[i] -= d]. *)
Definition subtract_at (logits : list R) (i : nat) (d : R) : Result (list R) :=
  (x <- index logits i ;; assign logits i (x - d))%result.

Definition forward_last (self : HuggingFaceAdapter.t) (ids : list nat)
    (soften_newline_eot : option bool) : Result (list R) :=
  let logits := HuggingFaceAdapter.last_logits self ids in
  if truthy soften_newline_eot then
    let newline_encoded := HuggingFaceAdapter.encode self [10%N] in
    let newline_id := hd_error newline_encoded in
    let eos_id := HuggingFaceAdapter.eos_token_id self in
    (logits <- match newline_id with
               | Some i => subtract_at logits i 2.0
               | None => ret logits
               end ;;
     logits <- match eos_id with
               | Some i => subtract_at logits i 2.0
               | None => ret logits
               end ;;
     ret logits)%result
  else ret logits.

(** What the soft bias subtracts at index [i] on account of the token id
    [id]: 2.0 at that id and nothing elsewhere, nothing at all for [None]. *)
Definition bias_offset (id : option nat) (i : nat) : R :=
  match id with
  | Some j => if Nat.eqb i j then 2.0 else 0
  | None => 0
  end.

(** The clamp [max(TOP_K_MIN, min(TOP_K_MAX, k))] that [topk] and [choose]
    apply to [k] on entry. *)
Definition clamp_top_k (k : Z) : Z := Z.max TOP_K_MIN (Z.min TOP_K_MAX k).

(** One turn of the loop of [topk]: the dictionary appended for the pair
    [(topk_log_probs[i], topk_ids[i])]. *)
Definition ranked_entry (self : HuggingFaceAdapter.t) (entry : R * nat) : TokenDict.t :=
  let token_id := snd entry in
  let token_text_raw := HuggingFaceAdapter.decode self token_id in
  let token_text_display := make_token_display token_text_raw in
  let logprob := fst entry in
  let prob := exp (fst entry) in
  TokenDict.make token_id token_text_raw token_text_raw token_text_display
    prob logprob None.

Section WithTorch.
Context {T : Torch}.

Definition topk (self : HuggingFaceAdapter.t) (logits : list R) (k : Z)
    : Result (list TokenDict.t) :=
  let k := Z.max TOP_K_MIN (Z.min TOP_K_MAX k) in
  let log_probs := log_softmax logits in
  (top <- torch_topk log_probs (Z.to_nat k) ;;
   result <- for_range
     (fun i => entry <- index top i ;; ret (ranked_entry self entry))
     (seq 0 (Z.to_nat k)) ;;
   ret (sort_reverse TokenDict.prob result))%result.

(** Lines 289-305 of [choose]: the nucleus filter on [probs]. *)
Definition nucleus_filter (probs : list R) (top_p : R) : Result (list R) :=
  let sorted := torch_sort_descending probs in
  let sorted_probs := map fst sorted in
  let sorted_indices := map snd sorted in
  let cumsum_probs := cumsum sorted_probs in
  let mask := map (fun c => Rleb c top_p) cumsum_probs in
  (mask <- (if negb (existsb (fun b => b) mask) then assign mask 0 true
            else ret mask) ;;
   let kept := map snd (filter fst (combine mask (combine sorted_indices sorted_probs))) in
   let filtered_probs := repeat 0 (List.length probs) in
   filtered_probs <- fold_left
     (fun acc iv => acc <- acc ;; assign acc (fst iv) (snd iv))
     kept (ret filtered_probs) ;;
   let total := Rsum filtered_probs in
   ret (map (fun x => x / total) filtered_probs))%result.

Definition choose (self : HuggingFaceAdapter.t) (logits : list R) (mode : pystr)
    (k : Z) (temperature top_p : option R) (g : Generator)
    : Result TokenDict.t :=
  let k := Z.max TOP_K_MIN (Z.min TOP_K_MAX k) in
  let log_probs := log_softmax logits in
  if pystr_eqb mode (py "argmax") then
    (chosen_idx <- argmax log_probs ;;
     chosen_logprob <- index log_probs chosen_idx ;;
     let token_id := chosen_idx in
     let token_text_raw := HuggingFaceAdapter.decode self token_id in
     let token_text_display := make_token_display token_text_raw in
     let logprob := chosen_logprob in
     let prob := exp chosen_logprob in
     let surprisal := - ln (prob + 1e-12) in
     ret (TokenDict.make token_id token_text_raw token_text_raw
            token_text_display prob logprob (Some surprisal)))%result
  else if pystr_eqb mode (py "stochastic") then
    let t := match temperature with
             | Some t => if Rlt_dec 0 t then t else 1.0
             | None => 1.0
             end in
    let logits_scaled := map (fun x => x / t) logits in
    let probs := softmax logits_scaled in
    (probs <- match top_p with
              | Some p => if Rlt_dec p 1.0 then nucleus_filter probs p else ret probs
              | None => ret probs
              end ;;
     chosen_idx <- torch_multinomial g probs ;;
     chosen_prob <- index probs chosen_idx ;;
     let chosen_logprob := ln (chosen_prob + 1e-10) in
     let token_id := chosen_idx in
     let token_text_raw := HuggingFaceAdapter.decode self token_id in
     let token_text_display := make_token_display token_text_raw in
     let surprisal := - ln (chosen_prob + 1e-12) in
     ret (TokenDict.make token_id token_text_raw token_text_raw
            token_text_display chosen_prob chosen_logprob (Some surprisal)))%result
  else raise (ValueError (py "Unsupported mode: " ++ mode)).

End WithTorch.

(** Line 283 of [choose]: the temperature the logits are divided by, the
    one given when it is positive and 1.0 otherwise. *)
Definition effective_temperature (temperature : option R) : R :=
  match temperature with
  | Some t => if Rlt_dec 0 t then t else 1.0
  | None => 1.0
  end.

(** ** [main.py]: the request handlers *)

Definition CONTRACT_VERSION : pystr := py "v1".
Definition TOP_K_DEFAULT : Z := 10.
Definition MAX_PAYLOAD_SIZE : Z := 50000.

Module main.
(** The module has constants of its own for the bounds of [top_k]. *)
Definition CONTEXT_CAP_TOKENS : nat := 512.
Definition TOP_K_MIN : Z := 5.
Definition TOP_K_MAX : Z := 30.

(** The clamp [max(TOP_K_MIN, min(TOP_K_MAX, request.top_k))] of the
    handlers. *)
Definition clamp_top_k (top_k : Z) : Z := Z.max TOP_K_MIN (Z.min TOP_K_MAX top_k).
End main.

Module NextDistRequestModel.
Record t : Type := make {
  context_text : pystr;
  top_k : Z
}.
End NextDistRequestModel.

Module StepRequestModel.
Record t : Type := make {
  context_text : pystr;
  top_k : Z;
  mode : pystr;
  temperature : option R;
  top_p : option R;
  soften_newline_eot : option bool
}.
End StepRequestModel.

(** [TokenInfoModel] and [ChosenTokenModel] have the same four fields. *)
Module TokenInfoModel.
Record t : Type := make {
  token_id : nat;
  token_text : pystr;
  prob : R;
  logprob : R
}.

(** The model built from the keys of [token]; its other keys are ignored. *)
Definition of_dict (token : TokenDict.t) : t :=
  make (TokenDict.token_id token) (TokenDict.token_text token)
       (TokenDict.prob token) (TokenDict.logprob token).
End TokenInfoModel.

Module LastTokenModel.
Record t : Type := make {
  id : option nat;
  text : option pystr
}.
End LastTokenModel.

Module ModelInfoModel.
Record t : Type := make {
  provider : pystr;
  model_name : pystr;
  vocab_size : nat
}.
End ModelInfoModel.

Module NextDistResponseModel.
Record t : Type := make {
  contract_version : pystr;
  context_len_tokens : nat;
  topk : list TokenInfoModel.t;
  coverage_topk : R;
  last_token : LastTokenModel.t;
  model_info : ModelInfoModel.t
}.
End NextDistResponseModel.

Module StepResponseModel.
Record t : Type := make {
  contract_version : pystr;
  context_len_tokens : nat;
  topk : list TokenInfoModel.t;
  coverage_topk : R;
  last_token : LastTokenModel.t;
  model_info : ModelInfoModel.t;
  chosen : TokenInfoModel.t;
  append_text : pystr;
  used_top_k : Z
}.
End StepResponseModel.

(** What a handler returns: its response model, or a [JSONResponse] whose
    content is [{"status": "error", "message": ..., "hint": ...}]. *)
Inductive Response (A : Type) : Type :=
| Success (body : A)
| JSONResponse (status_code : Z) (message hint : pystr).

Arguments Success {A} body.
Arguments JSONResponse {A} status_code message hint.

(** The calls a handler makes on the adapter, in order. The Scorer runs in
    [forward_last] and nowhere else. *)
Inductive Call : Type :=
| Call_tokenize (text : pystr)
| Call_forward_last (ids : list nat) (soften_newline_eot : option bool)
| Call_topk (k : Z)
| Call_choose (mode : pystr) (k : Z).

(** The body of a handler: it may raise, and it leaves a trace of calls. *)
Definition Traced (A : Type) : Type := (Result A * list Call)%type.

Definition tret {A : Type} (a : A) : Traced A := (inr a, []).

Definition tbind {A B : Type} (m : Traced A) (f : A -> Traced B) : Traced B :=
  match m with
  | (inl e, trace) => (inl e, trace)
  | (inr a, trace) => let (r, trace') := f a in (r, trace ++ trace')
  end.

Definition call {A : Type} (c : Call) (r : Result A) : Traced A := (r, [c]).

Declare Scope traced_scope.
Delimit Scope traced_scope with traced.
Notation "x <- m ;; k" := (tbind m (fun x => k))
  (at level 61, m at next level, right associativity) : traced_scope.

(** [except ValueError] and [except Exception] around the body. *)
Definition handle {A : Type} (body : Traced (Response A)) : Response A * list Call :=
  match body with
  | (inr response, trace) => (response, trace)
  | (inl (ValueError msg), trace) =>
      (JSONResponse 400 msg (py "Check your input parameters"), trace)
  | (inl e, trace) =>
      (JSONResponse 500 (str_exn e) (py "Internal server error occurred"), trace)
  end.

(** [l[-1] if l else None]. *)
Fixpoint last_or_none {A : Type} (l : list A) : option A :=
  match l with
  | [] => None
  | [x] => Some x
  | _ :: l' => last_or_none l'
  end.

Definition top_k_rejected {A : Type} : Response A :=
  JSONResponse 400 (py "top_k must be a positive integer")
    (py "Provide a top_k value between 1 and 30 (will be clamped to [5, 30])").

Definition payload_rejected {A : Type} : Response A :=
  JSONResponse 400
    (py "Input too large (max " ++ format_d (Z.to_N MAX_PAYLOAD_SIZE) ++ py " characters)")
    (py "Reduce the size of your context_text input").

Definition not_initialized {A : Type} : Response A :=
  JSONResponse 500 (py "Adapter not initialized") (py "Server startup may have failed").

(** Lines 311-314 of [step]: the chosen token is made to appear in [topk]. *)
Definition merge_chosen (chosen : TokenDict.t) (topk : list TokenDict.t)
    : list TokenDict.t :=
  let chosen_in_topk :=
    existsb (fun t => Nat.eqb (TokenDict.token_id t) (TokenDict.token_id chosen)) topk in
  if negb chosen_in_topk then [chosen] ++ removelast topk else topk.

(** Whether a ranking has an entry with token id [id]. *)
Definition has_id (id : nat) (ranking : list TokenDict.t) : bool :=
  existsb (fun t => Nat.eqb (TokenDict.token_id t) id) ranking.

Section Handlers.
Context {T : Torch}.

(** The global [adapter] is [None] until startup has loaded the model.
    In both handlers [request.top_k is None] cannot hold of an [int] field
    and [request.context_text if request.context_text else ""] is
    [request.context_text]; the field constraints of the request models act
    before the handlers and are not part of them. *)
Variable adapter : option HuggingFaceAdapter.t.

Definition next_dist (request : NextDistRequestModel.t)
    : Response NextDistResponseModel.t * list Call :=
  match adapter with
  | None => (not_initialized, [])
  | Some adapter =>
      handle
        (if (NextDistRequestModel.top_k request <? 1)%Z then tret top_k_rejected
         else if (MAX_PAYLOAD_SIZE <?
                    Z.of_nat (List.length (NextDistRequestModel.context_text request)))%Z
         then tret payload_rejected
         else
           let clamped_top_k :=
             Z.max main.TOP_K_MIN (Z.min main.TOP_K_MAX (NextDistRequestModel.top_k request)) in
           let context_text := NextDistRequestModel.context_text request in
           (tokenize_result <- call (Call_tokenize context_text)
                                 (ret (tokenize adapter context_text)) ;;
            let context_ids := TokenizeResult.ids tokenize_result in
            let context_tokens := TokenizeResult.tokens tokenize_result in
            let context_len := List.length context_ids in
            logits <- call (Call_forward_last context_ids (Some false))
                        (forward_last adapter context_ids (Some false)) ;;
            topk <- call (Call_topk clamped_top_k) (topk adapter logits clamped_top_k) ;;
            let coverage_topk := Rsum (map TokenDict.prob topk) in
            let last_token :=
              LastTokenModel.make (last_or_none context_ids) (last_or_none context_tokens) in
            let model_info :=
              ModelInfoModel.make (py "hf-local") (HuggingFaceAdapter.model_name adapter)
                (HuggingFaceAdapter.vocab_size adapter) in
            tret (Success (NextDistResponseModel.make CONTRACT_VERSION context_len
                             (map TokenInfoModel.of_dict topk) coverage_topk
                             last_token model_info)))%traced)
  end.

Definition step (request : StepRequestModel.t) (g : Generator)
    : Response StepResponseModel.t * list Call :=
  match adapter with
  | None => (not_initialized, [])
  | Some adapter =>
      handle
        (if (StepRequestModel.top_k request <? 1)%Z then tret top_k_rejected
         else if (MAX_PAYLOAD_SIZE <?
                    Z.of_nat (List.length (StepRequestModel.context_text request)))%Z
         then tret payload_rejected
         else
           let clamped_top_k :=
             Z.max main.TOP_K_MIN (Z.min main.TOP_K_MAX (StepRequestModel.top_k request)) in
           let used_top_k := clamped_top_k in
           let context_text := StepRequestModel.context_text request in
           let mode := StepRequestModel.mode request in
           let stochastic := pystr_eqb mode (py "stochastic") in
           (tokenize_result <- call (Call_tokenize context_text)
                                 (ret (tokenize adapter context_text)) ;;
            let context_ids := TokenizeResult.ids tokenize_result in
            let context_tokens := TokenizeResult.tokens tokenize_result in
            let context_len := List.length context_ids in
            logits <- call (Call_forward_last context_ids
                              (StepRequestModel.soften_newline_eot request))
                        (forward_last adapter context_ids
                           (StepRequestModel.soften_newline_eot request)) ;;
            topk <- call (Call_topk clamped_top_k) (topk adapter logits clamped_top_k) ;;
            chosen <- call (Call_choose mode clamped_top_k)
                        (choose adapter logits mode clamped_top_k
                           (if stochastic then StepRequestModel.temperature request else None)
                           (if stochastic then StepRequestModel.top_p request else None)
                           g) ;;
            let topk := merge_chosen chosen topk in
            let coverage_topk := Rsum (map TokenDict.prob topk) in
            let last_token :=
              LastTokenModel.make (last_or_none context_ids) (last_or_none context_tokens) in
            let model_info :=
              ModelInfoModel.make (py "hf-local") (HuggingFaceAdapter.model_name adapter)
                (HuggingFaceAdapter.vocab_size adapter) in
            let append_text := TokenDict.token_text_raw chosen in
            tret (Success (StepResponseModel.make CONTRACT_VERSION context_len
                             (map TokenInfoModel.of_dict topk) coverage_topk
                             last_token model_info (TokenInfoModel.of_dict chosen)
                             append_text used_top_k)))%traced)
  end.

End Handlers.

(** ** Names for the statements about [step]

    The ids [step] passes to [forward_last], the sampling parameters it
    passes to [choose], the response it returns when nothing is rejected and
    nothing raises, and the calls it has then made. *)

Definition step_ids (self : HuggingFaceAdapter.t) (request : StepRequestModel.t) : list nat :=
  TokenizeResult.ids (tokenize self (StepRequestModel.context_text request)).

Definition step_tokens (self : HuggingFaceAdapter.t) (request : StepRequestModel.t)
    : list pystr :=
  TokenizeResult.tokens (tokenize self (StepRequestModel.context_text request)).

Definition step_temperature (request : StepRequestModel.t) : option R :=
  if pystr_eqb (StepRequestModel.mode request) (py "stochastic")
  then StepRequestModel.temperature request else None.

Definition step_top_p (request : StepRequestModel.t) : option R :=
  if pystr_eqb (StepRequestModel.mode request) (py "stochastic")
  then StepRequestModel.top_p request else None.

Definition step_response (self : HuggingFaceAdapter.t) (request : StepRequestModel.t)
    (ranking : list TokenDict.t) (chosen : TokenDict.t) : StepResponseModel.t :=
  StepResponseModel.make CONTRACT_VERSION (List.length (step_ids self request))
    (map TokenInfoModel.of_dict (merge_chosen chosen ranking))
    (Rsum (map TokenDict.prob (merge_chosen chosen ranking)))
    (LastTokenModel.make (last_or_none (step_ids self request))
       (last_or_none (step_tokens self request)))
    (ModelInfoModel.make (py "hf-local") (HuggingFaceAdapter.model_name self)
       (HuggingFaceAdapter.vocab_size self))
    (TokenInfoModel.of_dict chosen) (TokenDict.token_text_raw chosen)
    (main.clamp_top_k (StepRequestModel.top_k request)).

Definition step_calls (self : HuggingFaceAdapter.t) (request : StepRequestModel.t)
    : list Call :=
  [Call_tokenize (StepRequestModel.context_text request);
   Call_forward_last (step_ids self request) (StepRequestModel.soften_newline_eot request);
   Call_topk (main.clamp_top_k (StepRequestModel.top_k request));
   Call_choose (StepRequestModel.mode request)
     (main.clamp_top_k (StepRequestModel.top_k request))].

(** ** The request model, [/next_dist] and [/healthz] *)

(** The field constraints of [StepRequestModel], which FastAPI checks
    before it calls the handler: [max_length], [ge], [le] and the
    [Literal] of [mode]. *)
Definition step_request_valid (request : StepRequestModel.t) : Prop :=
  (Z.of_nat (List.length (StepRequestModel.context_text request)) <= MAX_PAYLOAD_SIZE)%Z /\
  (1 <= StepRequestModel.top_k request)%Z /\
  (StepRequestModel.mode request = py "argmax" \/
   StepRequestModel.mode request = py "stochastic") /\
  (forall t, StepRequestModel.temperature request = Some t -> 0.2 <= t <= 1.5) /\
  (forall p, StepRequestModel.top_p request = Some p -> 0.7 <= p <= 1.0).

(** The calls [/next_dist] has made when nothing is rejected and nothing
    raises. *)
Definition next_dist_calls (self : HuggingFaceAdapter.t) (request : NextDistRequestModel.t)
    : list Call :=
  [Call_tokenize (NextDistRequestModel.context_text request);
   Call_forward_last
     (TokenizeResult.ids (tokenize self (NextDistRequestModel.context_text request)))
     (Some false);
   Call_topk (main.clamp_top_k (NextDistRequestModel.top_k request))].

(** The dictionary [/healthz] returns. *)
Module HealthModel.
Record t : Type := make {
  model_name : pystr;
  vocab_size : nat;
  contract_version : pystr
}.
End HealthModel.

Definition healthz (adapter : option HuggingFaceAdapter.t) : Response HealthModel.t :=
  match adapter with
  | None =>
      JSONResponse 503 (py "Model not loaded") (py "Server startup may have failed")
  | Some adapter =>
      Success (HealthModel.make (HuggingFaceAdapter.model_name adapter)
                 (HuggingFaceAdapter.vocab_size adapter) CONTRACT_VERSION)
  end.

(** The call does not raise [ValueError]. *)
Definition no_value_error {A : Type} (r : Result A) : Prop :=
  forall msg, r <> inl (ValueError msg).

(** ** Instances used to run the definitions

    Two implementations of the [torch] operations that meet [TorchSpec]:
    both sort with a stable sort and differ in the order in which they
    visit the tensor, hence in the order of entries of equal value; and an
    adapter over a vocabulary of eight tokens. *)

Definition reference_sort (order : list (R * nat) -> list (R * nat)) (xs : list R)
    : list (R * nat) :=
  sort_reverse fst (order (enumerate xs)).

Definition reference_topk (order : list (R * nat) -> list (R * nat)) (xs : list R)
    (k : nat) : Result (list (R * nat)) :=
  if (k <=? List.length xs)%nat then ret (firstn k (reference_sort order xs))
  else raise (RuntimeError (py "selected index k out of range")).

Fixpoint first_above (u : R) (i : nat) (cs : list R) : option nat :=
  match cs with
  | [] => None
  | c :: cs' => if Rlt_dec u c then Some i else first_above u (S i) cs'
  end.

(** Sampling by inversion of the cumulative distribution, for a uniform
    draw [u] in the unit interval. *)
Definition inverse_cdf (u : R) (probs : list R) : Result nat :=
  match first_above (u * Rsum probs) 0 (cumsum probs) with
  | Some i => ret i
  | None => raise (RuntimeError (py "invalid multinomial distribution"))
  end.

Definition torch_with (order : list (R * nat) -> list (R * nat)) : Torch :=
  {| Generator := R;
     torch_topk := reference_topk order;
     torch_sort_descending := reference_sort order;
     torch_multinomial := inverse_cdf |}.

(** Entries of equal value by ascending index. *)
Definition stable_torch : Torch := torch_with (fun l => l).

(** Entries of equal value by descending index. *)
Definition reversed_ties_torch : Torch := torch_with (@rev (R * nat)).

Definition demo_logits : list R := [3; 1; 4; 1; 5; 9; 2; 6].

Definition demo_request : StepRequestModel.t :=
  StepRequestModel.make (py "ab") 3 (py "argmax") (Some 0.8) (Some 0.95) (Some false).

Definition demo_adapter : HuggingFaceAdapter.t :=
  HuggingFaceAdapter.make (py "demo")
    (map (fun c => N.to_nat (c mod 8)%N))
    (fun id => [N.of_nat id])
    (fun id => [N.of_nat id])
    (Some 0%nat)
    8
    (fun _ => demo_logits).

(** * Properties *)

Example display_space : make_token_display [32%N] = [SYM_SPACE].
Proof. reflexivity. Qed.

Example display_three : make_token_display [32; 32; 32]%N = [SYM_SPACE; SYM_TIMES; 51%N].
Proof. reflexivity. Qed.

Example display_x_nl : make_token_display [120; 10]%N = [120%N; SYM_RETURN; 92%N; 110%N].
Proof. reflexivity. Qed.

Example display_soh :
  make_token_display [1%N] = [SYM_LBRACKET; 85; 43; 48; 48; 48; 49; SYM_RBRACKET]%N.
Proof. reflexivity. Qed.

Example display_nl : make_token_display [10%N] = [SYM_SPACE; SYM_TIMES; 49%N].
Proof. reflexivity. Qed.

Example format_04X_del : format_04X 0x9F = py "009F".
Proof. reflexivity. Qed.

Example format_d_ex : format_d 1203 = py "1203".
Proof. reflexivity. Qed.

(** ** Sums, exponentials and the two softmaxes *)

Lemma Rsum_app (xs ys : list R) : Rsum (xs ++ ys) = Rsum xs + Rsum ys.
Proof.
  induction xs as [|x xs IH]; simpl.
  - lra.
  - rewrite IH. lra.
Qed.

Lemma Rsum_exp_pos (xs : list R) : xs <> [] -> 0 < Rsum (map exp xs).
Proof.
  destruct xs as [|x xs]; [congruence|]. intros _. simpl.
  assert (H : 0 <= Rsum (map exp xs)).
  { induction xs as [|y ys IH]; simpl; [lra|]. pose proof (exp_pos y). lra. }
  pose proof (exp_pos x). lra.
Qed.

Lemma log_softmax_length (xs : list R) :
  List.length (log_softmax xs) = List.length xs.
Proof. unfold log_softmax. apply length_map. Qed.


Lemma exp_ge (x y : R) : x >= y -> exp x >= exp y.
Proof.
  intros [H|H].
  - left. apply exp_increasing. exact H.
  - right. now rewrite H.
Qed.

(** ** The stable descending sort *)

Section SortReverse.
Variable A : Type.
Variable key : A -> R.

Lemma sort_reverse_sorted_id (l : list A) :
  StronglySorted (by_key key) l -> sort_reverse key l = l.
Proof.
  induction 1 as [|x l Hs IH Hall]; simpl; [reflexivity|].
  rewrite IH. destruct l as [|y l']; simpl; [reflexivity|].
  apply Forall_inv in Hall. unfold by_key in Hall.
  destruct (Rlt_dec (key x) (key y)); [lra|reflexivity].
Qed.

Lemma insert_reverse_perm (x : A) (l : list A) :
  Permutation (insert_reverse key x l) (x :: l).
Proof.
  induction l as [|y l IH]; simpl; [reflexivity|].
  destruct (Rlt_dec (key x) (key y)).
  - rewrite IH. apply perm_swap.
  - reflexivity.
Qed.

Lemma sort_reverse_perm (l : list A) : Permutation (sort_reverse key l) l.
Proof.
  induction l as [|x l IH]; simpl; [reflexivity|].
  rewrite insert_reverse_perm. now constructor.
Qed.

Lemma insert_reverse_sorted (x : A) (l : list A) :
  StronglySorted (by_key key) l -> StronglySorted (by_key key) (insert_reverse key x l).
Proof.
  induction 1 as [|y l Hs IH Hall]; simpl.
  - repeat constructor.
  - destruct (Rlt_dec (key x) (key y)) as [Hlt|Hge].
    + constructor; [exact IH|].
      rewrite insert_reverse_perm. constructor; [unfold by_key; lra|exact Hall].
    + constructor; [constructor; assumption|].
      constructor; [unfold by_key; lra|].
      eapply Forall_impl; [|exact Hall]. unfold by_key. intros a Ha. lra.
Qed.

Lemma sort_reverse_sorted (l : list A) : StronglySorted (by_key key) (sort_reverse key l).
Proof.
  induction l as [|x l IH]; simpl; [constructor|].
  now apply insert_reverse_sorted.
Qed.
End SortReverse.

(** ** The reference [torch] operations meet the documented contract *)

Lemma in_enumerate_from (xs : list R) (start : nat) (v : R) (i : nat) :
  In (v, i) (combine xs (seq start (List.length xs))) <->
  (start <= i)%nat /\ nth_error xs (i - start) = Some v.
Proof.
  revert start. induction xs as [|x xs IH]; intros start; simpl.
  - split; [tauto|]. intros [_ H]. destruct (i - start)%nat; discriminate.
  - rewrite IH. split.
    + intros [H|[Hle H]].
      * inversion H; subst. split; [lia|]. now rewrite Nat.sub_diag.
      * split; [lia|]. replace (i - start)%nat with (S (i - S start)) by lia. exact H.
    + intros [Hle H]. destruct (Nat.eq_dec i start) as [->|Hne].
      * rewrite Nat.sub_diag in H. simpl in H. left. congruence.
      * right. split; [lia|].
        replace (i - start)%nat with (S (i - S start)) in H by lia. exact H.
Qed.

Lemma in_enumerate (xs : list R) (v : R) (i : nat) :
  In (v, i) (enumerate xs) <-> nth_error xs i = Some v.
Proof.
  unfold enumerate. rewrite in_enumerate_from, Nat.sub_0_r.
  split; [tauto|]. split; [lia|assumption].
Qed.

Lemma enumerate_indices (xs : list R) :
  map snd (enumerate xs) = seq 0 (List.length xs).
Proof.
  unfold enumerate. generalize 0%nat.
  induction xs as [|x xs IH]; intros n; simpl; [reflexivity|]. now rewrite IH.
Qed.

Lemma enumerate_length (xs : list R) : List.length (enumerate xs) = List.length xs.
Proof. unfold enumerate. rewrite length_combine, length_seq. apply Nat.min_id. Qed.

Lemma StronglySorted_app_cross {A : Type} (rel : A -> A -> Prop) (l1 l2 : list A) :
  StronglySorted rel (l1 ++ l2) ->
  forall a b, In a l1 -> In b l2 -> rel a b.
Proof.
  induction l1 as [|x l1 IH]; simpl; intros Hs a b Ha Hb; [contradiction|].
  inversion Hs as [|? ? Hs' Hall]; subst. destruct Ha as [->|Ha].
  - rewrite Forall_forall in Hall. apply Hall, in_or_app. now right.
  - now apply IH.
Qed.

Lemma StronglySorted_firstn {A : Type} (rel : A -> A -> Prop) (n : nat) (l : list A) :
  StronglySorted rel l -> StronglySorted rel (firstn n l).
Proof.
  intros Hs. revert n. induction Hs as [|x l Hs IH Hall]; intros [|n]; simpl;
    try constructor.
  - apply IH.
  - rewrite Forall_forall in *. intros y Hy. apply Hall.
    rewrite <- (firstn_skipn n l). apply in_or_app. now left.
Qed.

Section ReferenceTorch.
Variable order : list (R * nat) -> list (R * nat).
Hypothesis order_perm : forall l, Permutation (order l) l.

Lemma reference_sort_perm (xs : list R) :
  Permutation (reference_sort order xs) (enumerate xs).
Proof. unfold reference_sort. now rewrite sort_reverse_perm. Qed.

Lemma reference_sort_sorted (xs : list R) :
  StronglySorted descending (reference_sort order xs).
Proof. apply sort_reverse_sorted. Qed.

Lemma reference_topk_post (xs : list R) (k : nat) :
  (k <= List.length xs)%nat ->
  topk_post xs k (firstn k (reference_sort order xs)).
Proof.
  intros Hk.
  pose proof (reference_sort_perm xs) as Hperm.
  pose proof (reference_sort_sorted xs) as Hsorted.
  set (sorted := reference_sort order xs) in *.
  assert (Hsplit : sorted = firstn k sorted ++ skipn k sorted)
    by (symmetry; apply firstn_skipn).
  constructor.
  - rewrite length_firstn, (Permutation_length Hperm), enumerate_length. lia.
  - intros v i Hin. apply in_enumerate.
    apply (Permutation_in _ Hperm). rewrite Hsplit. apply in_or_app. now left.
  - assert (Hnd : NoDup (map snd sorted)).
    { apply (Permutation_NoDup (l := seq 0 (List.length xs))); [|apply seq_NoDup].
      rewrite <- enumerate_indices. symmetry. now apply Permutation_map. }
    rewrite Hsplit, map_app in Hnd. now apply NoDup_app_remove_r in Hnd.
  - now apply StronglySorted_firstn.
  - intros j x Hj Hout v i Hin.
    assert (Hjs : In (x, j) sorted).
    { apply (Permutation_in _ (Permutation_sym Hperm)). now apply in_enumerate. }
    rewrite Hsplit in Hjs. apply in_app_or in Hjs. destruct Hjs as [Hjs|Hjs].
    + exfalso. apply Hout. change j with (snd (x, j)). now apply in_map.
    + rewrite Hsplit in Hsorted.
      pose proof (StronglySorted_app_cross _ _ _ Hsorted (v, i) (x, j) Hin Hjs) as Hd.
      unfold descending in Hd. simpl in Hd. lra.
Qed.

Lemma torch_with_spec : TorchSpec (torch_with order).
Proof.
  constructor; simpl.
  - intros xs k Hk. unfold reference_topk.
    destruct (Nat.leb_spec k (List.length xs)); [lia|]. eexists. reflexivity.
  - intros xs k Hk. unfold reference_topk.
    destruct (Nat.leb_spec k (List.length xs)); [|lia].
    eexists. split; [reflexivity|]. now apply reference_topk_post.
  - apply reference_sort_perm.
  - apply reference_sort_sorted.
Qed.
End ReferenceTorch.

Lemma stable_torch_spec : TorchSpec stable_torch.
Proof. apply torch_with_spec. reflexivity. Qed.

Lemma reversed_ties_torch_spec : TorchSpec reversed_ties_torch.
Proof. apply torch_with_spec. intros l. symmetry. apply Permutation_rev. Qed.

(** ** The ranking returned by [topk] *)

Lemma for_range_index_from {A B : Type} (f : A -> B) (pre rest : list A) :
  for_range (fun i => (entry <- index (pre ++ rest) i ;; ret (f entry))%result)
    (seq (List.length pre) (List.length rest)) = ret (map f rest).
Proof.
  revert pre. induction rest as [|x rest IH]; intros pre; simpl; [reflexivity|].
  unfold index at 1. rewrite nth_error_app2, Nat.sub_diag by lia. simpl.
  specialize (IH (pre ++ [x])). rewrite <- app_assoc, length_app in IH. simpl in IH.
  rewrite Nat.add_1_r in IH. rewrite IH. reflexivity.
Qed.

Lemma for_range_index {A B : Type} (f : A -> B) (l : list A) :
  for_range (fun i => (entry <- index l i ;; ret (f entry))%result)
    (seq 0 (List.length l)) = ret (map f l).
Proof. apply (for_range_index_from f [] l). Qed.

Lemma clamp_top_k_bounds (k : Z) : (5 <= clamp_top_k k <= 30)%Z.
Proof. unfold clamp_top_k, TOP_K_MIN, TOP_K_MAX. lia. Qed.

Lemma ranked_sorted_by_prob (self : HuggingFaceAdapter.t) (res : list (R * nat)) :
  StronglySorted descending res ->
  StronglySorted (fun a b => TokenDict.prob a >= TokenDict.prob b)
    (map (ranked_entry self) res).
Proof.
  induction 1 as [|x l Hs IH Hall]; simpl; constructor; [exact IH|].
  rewrite Forall_map. eapply Forall_impl; [|exact Hall].
  intros y Hy. simpl. now apply exp_ge.
Qed.

Section Ranking.
Context {T : Torch}.
Hypothesis torch_ok : TorchSpec T.
Variable self : HuggingFaceAdapter.t.

(** With enough logits, [topk] returns the pairs of [torch.topk], one
    dictionary each, in the order [torch.topk] gave them. *)
Lemma topk_returns (logits : list R) (k : Z) :
  (Z.to_nat (clamp_top_k k) <= List.length logits)%nat ->
  exists res,
    torch_topk (log_softmax logits) (Z.to_nat (clamp_top_k k)) = inr res /\
    topk_post (log_softmax logits) (Z.to_nat (clamp_top_k k)) res /\
    topk self logits k = inr (map (ranked_entry self) res).
Proof.
  intros Hlen.
  destruct (topk_in_range _ torch_ok (log_softmax logits) (Z.to_nat (clamp_top_k k)))
    as [res [Hres Hpost]]; [now rewrite log_softmax_length|].
  exists res. split; [exact Hres|]. split; [exact Hpost|].
  unfold topk. fold (clamp_top_k k). rewrite Hres. simpl.
  rewrite <- (topk_length _ _ _ Hpost) at 1. rewrite for_range_index. simpl.
  rewrite sort_reverse_sorted_id; [reflexivity|].
  apply ranked_sorted_by_prob, (topk_sorted _ _ _ Hpost).
Qed.

(** With too few logits, [torch.topk] raises and so does [topk]. *)
Lemma topk_raises (logits : list R) (k : Z) :
  (List.length logits < Z.to_nat (clamp_top_k k))%nat ->
  exists e, topk self logits k = inl e.
Proof.
  intros Hlen.
  destruct (topk_out_of_range _ torch_ok (log_softmax logits) (Z.to_nat (clamp_top_k k)))
    as [e He]; [now rewrite log_softmax_length|].
  exists e. unfold topk. fold (clamp_top_k k). now rewrite He.
Qed.
End Ranking.

(** ** The [/step] handler *)

Section StepFacts.
Context {T : Torch}.
Variable self : HuggingFaceAdapter.t.
Variable request : StepRequestModel.t.
Variable g : Generator.

Lemma step_success (logits : list R) (ranking : list TokenDict.t) (chosen : TokenDict.t) :
  (1 <= StepRequestModel.top_k request)%Z ->
  (Z.of_nat (List.length (StepRequestModel.context_text request)) <= MAX_PAYLOAD_SIZE)%Z ->
  forward_last self (step_ids self request) (StepRequestModel.soften_newline_eot request)
    = inr logits ->
  topk self logits (main.clamp_top_k (StepRequestModel.top_k request)) = inr ranking ->
  choose self logits (StepRequestModel.mode request)
    (main.clamp_top_k (StepRequestModel.top_k request))
    (step_temperature request) (step_top_p request) g = inr chosen ->
  step (Some self) request g =
    (Success (step_response self request ranking chosen), step_calls self request).
Proof.
  intros Hk Hlen Hf Ht Hc. unfold step.
  destruct (Z.ltb_spec (StepRequestModel.top_k request) 1); [lia|].
  destruct (Z.ltb_spec MAX_PAYLOAD_SIZE
              (Z.of_nat (List.length (StepRequestModel.context_text request)))); [lia|].
  fold (main.clamp_top_k (StepRequestModel.top_k request)).
  unfold call, tbind, tret, ret. cbv beta iota.
  fold (step_ids self request) (step_tokens self request)
    (step_temperature request) (step_top_p request).
  rewrite Hf, Ht, Hc. reflexivity.
Qed.

Lemma step_success_inv (body : StepResponseModel.t) (trace : list Call) :
  step (Some self) request g = (Success body, trace) ->
  exists logits ranking chosen,
    (1 <= StepRequestModel.top_k request)%Z /\
    (Z.of_nat (List.length (StepRequestModel.context_text request)) <= MAX_PAYLOAD_SIZE)%Z /\
    forward_last self (step_ids self request) (StepRequestModel.soften_newline_eot request)
      = inr logits /\
    topk self logits (main.clamp_top_k (StepRequestModel.top_k request)) = inr ranking /\
    choose self logits (StepRequestModel.mode request)
      (main.clamp_top_k (StepRequestModel.top_k request))
      (step_temperature request) (step_top_p request) g = inr chosen /\
    body = step_response self request ranking chosen /\
    trace = step_calls self request.
Proof.
  unfold step.
  destruct (Z.ltb_spec (StepRequestModel.top_k request) 1); [discriminate|].
  destruct (Z.ltb_spec MAX_PAYLOAD_SIZE
              (Z.of_nat (List.length (StepRequestModel.context_text request))));
    [discriminate|].
  fold (main.clamp_top_k (StepRequestModel.top_k request)).
  unfold call, tbind, tret, ret. cbv beta iota.
  fold (step_ids self request) (step_tokens self request)
    (step_temperature request) (step_top_p request).
  destruct (forward_last self (step_ids self request) _) as [e|logits] eqn:Hf;
    [destruct e; discriminate|].
  destruct (topk self logits _) as [e|ranking] eqn:Ht; [destruct e; discriminate|].
  destruct (choose self logits _ _ _ _ g) as [e|chosen] eqn:Hc;
    [destruct e; discriminate|].
  simpl. intros Heq. inversion Heq; subst.
  exists logits, ranking, chosen. repeat split; try assumption; reflexivity.
Qed.

End StepFacts.

(** ** Greedy selection *)

Lemma argmax_from_spec (xs pre : list R) (best : nat) (best_value : R) :
  nth_error pre best = Some best_value ->
  (forall j y, nth_error pre j = Some y -> y <= best_value) ->
  (forall j y, (j < best)%nat -> nth_error pre j = Some y -> y < best_value) ->
  let r := argmax_from (List.length pre) best best_value xs in
  exists v,
    nth_error (pre ++ xs) r = Some v /\
    (forall j y, nth_error (pre ++ xs) j = Some y -> y <= v) /\
    (forall j y, (j < r)%nat -> nth_error (pre ++ xs) j = Some y -> y < v).
Proof.
  revert pre best best_value.
  induction xs as [|x xs IH]; intros pre best best_value Hbest Hmax Hfirst; simpl.
  - rewrite app_nil_r. now exists best_value.
  - assert (Hpre : (best < List.length pre)%nat)
      by (apply nth_error_Some; congruence).
    destruct (Rlt_dec best_value x) as [Hlt|Hge].
    + specialize (IH (pre ++ [x]) (List.length pre) x).
      rewrite length_app, Nat.add_1_r, <- app_assoc in IH. simpl in IH.
      apply IH.
      * now rewrite nth_error_app2, Nat.sub_diag by lia.
      * intros j y Hj. destruct (Nat.lt_ge_cases j (List.length pre)) as [Hl|Hl].
        -- rewrite nth_error_app1 in Hj by assumption.
           apply Hmax in Hj. lra.
        -- rewrite nth_error_app2 in Hj by assumption.
           destruct (j - List.length pre)%nat as [|[|n]]; simpl in Hj;
             try discriminate. inversion Hj. lra.
      * intros j y Hl Hj. rewrite nth_error_app1 in Hj by assumption.
        apply Hmax in Hj. lra.
    + specialize (IH (pre ++ [x]) best best_value).
      rewrite length_app, Nat.add_1_r, <- app_assoc in IH. simpl in IH.
      apply IH.
      * now rewrite nth_error_app1 by assumption.
      * intros j y Hj. destruct (Nat.lt_ge_cases j (List.length pre)) as [Hl|Hl].
        -- rewrite nth_error_app1 in Hj by assumption. now apply (Hmax j).
        -- rewrite nth_error_app2 in Hj by assumption.
           destruct (j - List.length pre)%nat as [|[|n]]; simpl in Hj;
             try discriminate. inversion Hj. lra.
      * intros j y Hl Hj. rewrite nth_error_app1 in Hj by lia.
        now apply (Hfirst j).
Qed.

Lemma argmax_spec (xs : list R) :
  xs <> [] ->
  exists r v,
    argmax xs = inr r /\
    nth_error xs r = Some v /\
    (forall j y, nth_error xs j = Some y -> y <= v) /\
    (forall j y, (j < r)%nat -> nth_error xs j = Some y -> y < v).
Proof.
  destruct xs as [|x xs]; [congruence|]. intros _.
  destruct (argmax_from_spec xs [x] 0 x) as [v Hv].
  - reflexivity.
  - intros [|[|j]] y Hj; simpl in Hj; try discriminate. inversion Hj. lra.
  - intros j y Hj. lia.
  - exists (argmax_from 1 0 x xs), v. split; [reflexivity|]. exact Hv.
Qed.

Lemma log_softmax_nil_iff (xs : list R) : log_softmax xs = [] <-> xs = [].
Proof.
  split; intros H.
  - apply (f_equal (@List.length R)) in H. rewrite log_softmax_length in H.
    now destruct xs.
  - now subst.
Qed.

Section Greedy.
Context {T : Torch}.
Variable self : HuggingFaceAdapter.t.

(** What [choose] returns in mode ["argmax"], from the index [argmax]
    finds. *)
Lemma choose_argmax_eq (logits : list R) (k : Z) (temperature top_p : option R)
    (g : Generator) (idx : nat) (lp : R) :
  argmax (log_softmax logits) = inr idx ->
  nth_error (log_softmax logits) idx = Some lp ->
  choose self logits (py "argmax") k temperature top_p g =
    inr (TokenDict.make idx (HuggingFaceAdapter.decode self idx)
           (HuggingFaceAdapter.decode self idx)
           (make_token_display (HuggingFaceAdapter.decode self idx))
           (exp lp) lp (Some (- ln (exp lp + 1e-12)))).
Proof.
  intros Ha Hn. unfold choose.
  replace (pystr_eqb (py "argmax") (py "argmax")) with true by reflexivity.
  rewrite Ha. simpl. unfold index. rewrite Hn. reflexivity.
Qed.
End Greedy.

Lemma choose_argmax_returns (T : Torch) (self : HuggingFaceAdapter.t) (logits : list R)
    (k : Z) (temperature top_p : option R) (g : Generator) :
  logits <> [] ->
  exists chosen, choose self logits (py "argmax") k temperature top_p g = inr chosen.
Proof.
  intros Hne.
  destruct (argmax_spec (log_softmax logits)) as [idx [lp [Ha [Hn _]]]].
  - now rewrite log_softmax_nil_iff.
  - eexists. apply (choose_argmax_eq self logits k _ _ g idx lp Ha Hn).
Qed.

(** C3. In mode ["argmax"], on a non-empty logit vector, [choose] returns the
    first index whose log-probability is the highest of the whole
    vocabulary, whatever [k] is; the probability it reports is the
    exponential of that log-probability and the surprisal is
    [-ln(prob + 1e-12)]. *)
Theorem choose_argmax_global (T : Torch) (self : HuggingFaceAdapter.t)
    (logits : list R) (k : Z) (temperature top_p : option R) (g : Generator) :
  logits <> [] ->
  exists chosen,
    choose self logits (py "argmax") k temperature top_p g = inr chosen /\
    nth_error (log_softmax logits) (TokenDict.token_id chosen)
      = Some (TokenDict.logprob chosen) /\
    (forall j lp, nth_error (log_softmax logits) j = Some lp ->
                  lp <= TokenDict.logprob chosen) /\
    (forall j lp, (j < TokenDict.token_id chosen)%nat ->
                  nth_error (log_softmax logits) j = Some lp ->
                  lp < TokenDict.logprob chosen) /\
    TokenDict.prob chosen = exp (TokenDict.logprob chosen) /\
    TokenDict.surprisal chosen = Some (- ln (TokenDict.prob chosen + 1e-12)) /\
    (forall k', choose self logits (py "argmax") k' temperature top_p g = inr chosen).
Proof.
  intros Hne.
  destruct (argmax_spec (log_softmax logits)) as [idx [lp [Ha [Hn [Hmax Hfirst]]]]].
  - now rewrite log_softmax_nil_iff.
  - eexists. split; [apply (choose_argmax_eq self logits k _ _ g idx lp Ha Hn)|].
    simpl. repeat split; try assumption.
    intros k'. apply (choose_argmax_eq self logits k' _ _ g idx lp Ha Hn).
Qed.

Lemma choose_argmax_global_witness :
  demo_logits <> [] /\
  exists chosen,
    @choose stable_torch demo_adapter demo_logits (py "argmax") 3 None None 0 = inr chosen /\
    (forall j lp, nth_error (log_softmax demo_logits) j = Some lp ->
                  lp <= TokenDict.logprob chosen) /\
    (forall k', @choose stable_torch demo_adapter demo_logits (py "argmax") k' None None 0
                = inr chosen).
Proof.
  assert (Hne : demo_logits <> []) by discriminate.
  split; [exact Hne|].
  destruct (choose_argmax_global stable_torch demo_adapter demo_logits 3 None None 0 Hne)
    as [chosen [Hc [_ [Hmax [_ [_ [_ Hk]]]]]]].
  exists chosen. repeat split; assumption.
Defined.

(** ** The merge of the chosen token into the ranking *)

Lemma has_id_In (id : nat) (ranking : list TokenDict.t) :
  has_id id ranking = true <-> In id (map TokenDict.token_id ranking).
Proof.
  unfold has_id. rewrite existsb_exists, in_map_iff. split.
  - intros [t [Hin Heq]]. apply Nat.eqb_eq in Heq. now exists t.
  - intros [t [Heq Hin]]. exists t. split; [exact Hin|]. now apply Nat.eqb_eq.
Qed.

Lemma merge_chosen_cases (chosen : TokenDict.t) (ranking : list TokenDict.t) :
  merge_chosen chosen ranking =
    if has_id (TokenDict.token_id chosen) ranking then ranking
    else chosen :: removelast ranking.
Proof.
  unfold merge_chosen, has_id.
  now destruct (existsb _ ranking).
Qed.

Lemma removelast_length {A : Type} (l : list A) :
  List.length (removelast l) = (List.length l - 1)%nat.
Proof.
  induction l as [|x [|y l] IH]; simpl in *; try reflexivity.
  rewrite IH. lia.
Qed.

Lemma merge_chosen_length (chosen : TokenDict.t) (ranking : list TokenDict.t) :
  ranking <> [] ->
  List.length (merge_chosen chosen ranking) = List.length ranking.
Proof.
  intros Hne. rewrite merge_chosen_cases.
  destruct (has_id _ ranking); [reflexivity|]. simpl.
  rewrite removelast_length. destruct ranking; [congruence|simpl; lia].
Qed.

Lemma merge_chosen_contains (chosen : TokenDict.t) (ranking : list TokenDict.t) :
  In (TokenDict.token_id chosen) (map TokenDict.token_id (merge_chosen chosen ranking)).
Proof.
  rewrite merge_chosen_cases.
  destruct (has_id _ ranking) eqn:E.
  - now apply has_id_In.
  - now left.
Qed.

Lemma of_dict_ids (l : list TokenDict.t) :
  map TokenInfoModel.token_id (map TokenInfoModel.of_dict l) = map TokenDict.token_id l.
Proof. rewrite map_map. reflexivity. Qed.

(** C2. In a call of [/step] that reaches the merge: when the id of the
    chosen token is not in the ranking [topk] returned, the ranking of the
    response is the chosen entry followed by that ranking without its last
    entry, and otherwise it is that ranking unchanged, in the same order;
    either way it contains the id of the chosen token and its length is
    [used_top_k], the clamped [top_k]. *)
Theorem step_merge_keeps_chosen (T : Torch) (torch_ok : TorchSpec T)
    (self : HuggingFaceAdapter.t) (request : StepRequestModel.t) (g : Generator)
    (body : StepResponseModel.t) (trace : list Call) :
  step (Some self) request g = (Success body, trace) ->
  exists logits ranking chosen,
    topk self logits (main.clamp_top_k (StepRequestModel.top_k request)) = inr ranking /\
    choose self logits (StepRequestModel.mode request)
      (main.clamp_top_k (StepRequestModel.top_k request))
      (step_temperature request) (step_top_p request) g = inr chosen /\
    StepResponseModel.chosen body = TokenInfoModel.of_dict chosen /\
    StepResponseModel.topk body =
      map TokenInfoModel.of_dict
        (if has_id (TokenDict.token_id chosen) ranking then ranking
         else chosen :: removelast ranking) /\
    In (TokenInfoModel.token_id (StepResponseModel.chosen body))
       (map TokenInfoModel.token_id (StepResponseModel.topk body)) /\
    StepResponseModel.used_top_k body = main.clamp_top_k (StepRequestModel.top_k request) /\
    Z.of_nat (List.length (StepResponseModel.topk body)) = StepResponseModel.used_top_k body.
Proof.
  intros Hstep.
  destruct (step_success_inv self request g body trace Hstep)
    as [logits [ranking [chosen [Hk [Hlen [Hf [Ht [Hc [Hbody Htrace]]]]]]]]].
  exists logits, ranking, chosen. subst body. simpl.
  split; [exact Ht|]. split; [exact Hc|].
  split; [reflexivity|]. split; [now rewrite merge_chosen_cases|].
  split; [rewrite of_dict_ids; apply merge_chosen_contains|].
  split; [reflexivity|].
  set (k := main.clamp_top_k (StepRequestModel.top_k request)) in *.
  assert (Hrank : List.length ranking = Z.to_nat k).
  { destruct (Nat.le_gt_cases (Z.to_nat (clamp_top_k k)) (List.length logits)) as [Hle|Hgt].
    - destruct (topk_returns torch_ok self logits k Hle) as [res [_ [Hpost Heq]]].
      rewrite Heq in Ht. inversion Ht. rewrite length_map, (topk_length _ _ _ Hpost).
      unfold k, clamp_top_k, main.clamp_top_k, TOP_K_MIN, TOP_K_MAX,
        main.TOP_K_MIN, main.TOP_K_MAX. lia.
    - destruct (topk_raises torch_ok self logits k Hgt) as [e He]. congruence. }
  rewrite length_map, merge_chosen_length.
  - rewrite Hrank. unfold k, main.clamp_top_k, main.TOP_K_MIN, main.TOP_K_MAX. lia.
  - intros ->. simpl in Hrank.
    unfold k, main.clamp_top_k, main.TOP_K_MIN, main.TOP_K_MAX in Hrank. lia.
Qed.

Lemma step_merge_keeps_chosen_witness :
  exists body trace,
    @step stable_torch (Some demo_adapter) demo_request 0 = (Success body, trace) /\
    In (TokenInfoModel.token_id (StepResponseModel.chosen body))
       (map TokenInfoModel.token_id (StepResponseModel.topk body)) /\
    StepResponseModel.used_top_k body = 5%Z /\
    List.length (StepResponseModel.topk body) = 5%nat.
Proof.
  assert (Hlen : (Z.to_nat (clamp_top_k 5) <= List.length demo_logits)%nat)
    by (unfold clamp_top_k, TOP_K_MIN, TOP_K_MAX, demo_logits; simpl; lia).
  destruct (topk_returns stable_torch_spec demo_adapter demo_logits 5 Hlen)
    as [res [_ [_ Hrank]]].
  assert (Hne : demo_logits <> []) by discriminate.
  destruct (choose_argmax_returns stable_torch demo_adapter demo_logits 5 None None 0 Hne)
    as [chosen Hc].
  pose proof (@step_success stable_torch demo_adapter demo_request 0 demo_logits
                (map (ranked_entry demo_adapter) res) chosen) as Hstep.
  cbv zeta in Hstep.
  specialize (Hstep ltac:(vm_compute; discriminate) ltac:(vm_compute; discriminate)
                eq_refl Hrank Hc).
  eexists. eexists. split; [exact Hstep|].
  destruct (step_merge_keeps_chosen stable_torch stable_torch_spec demo_adapter
              demo_request 0 _ _ Hstep)
    as [logits [ranking [chosen' [_ [_ [_ [_ [Hin [Hused Hcount]]]]]]]]].
  split; [exact Hin|]. split; [exact Hused|].
  apply Nat2Z.inj. rewrite Hcount, Hused. reflexivity.
Defined.

(** ** Length, order and ids of the ranking *)

Lemma topk_length_of (T : Torch) (torch_ok : TorchSpec T) (self : HuggingFaceAdapter.t)
    (logits : list R) (k : Z) (ranking : list TokenDict.t) :
  topk self logits k = inr ranking ->
  List.length ranking = Z.to_nat (clamp_top_k k).
Proof.
  intros Ht.
  destruct (Nat.le_gt_cases (Z.to_nat (clamp_top_k k)) (List.length logits)) as [Hle|Hgt].
  - destruct (topk_returns torch_ok self logits k Hle) as [res [_ [Hpost Heq]]].
    rewrite Heq in Ht. inversion Ht. now rewrite length_map, (topk_length _ _ _ Hpost).
  - destruct (topk_raises torch_ok self logits k Hgt) as [e He]. congruence.
Qed.

Lemma clamp_top_k_idempotent (k : Z) : clamp_top_k (main.clamp_top_k k) = main.clamp_top_k k.
Proof.
  unfold clamp_top_k, main.clamp_top_k, TOP_K_MIN, TOP_K_MAX, main.TOP_K_MIN, main.TOP_K_MAX.
  lia.
Qed.

Lemma ranked_entry_ids (self : HuggingFaceAdapter.t) (res : list (R * nat)) :
  map TokenDict.token_id (map (ranked_entry self) res) = map snd res.
Proof. rewrite map_map. reflexivity. Qed.

(** C4, amended. For a logit vector with at least [clamp(top_k)] entries
    and any [top_k >= 1], [topk] returns a ranking of exactly
    [clamp(top_k, [5, 30])] entries, in descending order of probability
    where entries of equal probability may follow one another, with no
    token id twice; the clamp of the adapter and the clamp of the handlers
    agree, take 3 to 5 and 50 to 30; and a successful [/step] reports
    [used_top_k] equal to that clamp, with as many entries in its ranking. *)
Theorem topk_ranking_clamped (T : Torch) (torch_ok : TorchSpec T)
    (self : HuggingFaceAdapter.t) (logits : list R) (k : Z) :
  (1 <= k)%Z ->
  (Z.to_nat (clamp_top_k k) <= List.length logits)%nat ->
  exists ranking,
    topk self logits k = inr ranking /\
    Z.of_nat (List.length ranking) = clamp_top_k k /\
    StronglySorted (fun a b => TokenDict.prob a >= TokenDict.prob b) ranking /\
    NoDup (map TokenDict.token_id ranking) /\
    clamp_top_k k = main.clamp_top_k k /\
    clamp_top_k 3 = 5%Z /\ clamp_top_k 50 = 30%Z /\
    (forall request g body trace,
        StepRequestModel.top_k request = k ->
        step (Some self) request g = (Success body, trace) ->
        StepResponseModel.used_top_k body = clamp_top_k k /\
        Z.of_nat (List.length (StepResponseModel.topk body)) = clamp_top_k k).
Proof.
  intros Hk Hlen.
  destruct (topk_returns torch_ok self logits k Hlen) as [res [_ [Hpost Heq]]].
  exists (map (ranked_entry self) res).
  pose proof (clamp_top_k_bounds k) as Hb.
  split; [exact Heq|]. split.
  { rewrite length_map, (topk_length _ _ _ Hpost). lia. }
  split; [apply ranked_sorted_by_prob, (topk_sorted _ _ _ Hpost)|].
  split; [rewrite ranked_entry_ids; apply (topk_distinct _ _ _ Hpost)|].
  split; [reflexivity|]. split; [reflexivity|]. split; [reflexivity|].
  intros request g body trace Hreq Hstep.
  destruct (step_success_inv self request g body trace Hstep)
    as [logits' [ranking [chosen [_ [_ [_ [Ht [_ [Hbody _]]]]]]]]].
  subst body k. simpl. split; [reflexivity|].
  apply (topk_length_of T torch_ok) in Ht. rewrite clamp_top_k_idempotent in Ht.
  rewrite length_map, merge_chosen_length.
  - rewrite Ht. change (main.clamp_top_k (StepRequestModel.top_k request))
      with (clamp_top_k (StepRequestModel.top_k request)). lia.
  - intros ->. simpl in Ht.
    change (main.clamp_top_k (StepRequestModel.top_k request))
      with (clamp_top_k (StepRequestModel.top_k request)) in Ht. lia.
Qed.

Lemma topk_ranking_clamped_witness :
  (1 <= 3)%Z /\
  (Z.to_nat (clamp_top_k 3) <= List.length demo_logits)%nat /\
  exists ranking,
    @topk stable_torch demo_adapter demo_logits 3 = inr ranking /\
    List.length ranking = 5%nat /\
    NoDup (map TokenDict.token_id ranking).
Proof.
  assert (Hk : (1 <= 3)%Z) by lia.
  assert (Hlen : (Z.to_nat (clamp_top_k 3) <= List.length demo_logits)%nat)
    by (unfold clamp_top_k, TOP_K_MIN, TOP_K_MAX, demo_logits; simpl; lia).
  split; [exact Hk|]. split; [exact Hlen|].
  destruct (topk_ranking_clamped stable_torch stable_torch_spec demo_adapter
              demo_logits 3 Hk Hlen)
    as [ranking [Ht [Hcount [_ [Hnd _]]]]].
  exists ranking. split; [exact Ht|]. split; [|exact Hnd].
  apply Nat2Z.inj. rewrite Hcount. reflexivity.
Defined.

(** C4, as stated, fails on five equal logits: [topk] returns a ranking,
    and whatever [torch.topk] does within its contract every entry has the
    same probability, so the ranking is not strictly descending. *)
Lemma topk_ties_not_strict :
  (exists ranking, @topk stable_torch demo_adapter [0; 0; 0; 0; 0] 5 = inr ranking) /\
  (forall T : Torch, TorchSpec T ->
   forall ranking, @topk T demo_adapter [0; 0; 0; 0; 0] 5 = inr ranking ->
     ~ StronglySorted (fun a b => TokenDict.prob a > TokenDict.prob b) ranking).
Proof.
  assert (Hlen : (Z.to_nat (clamp_top_k 5) <= List.length [0; 0; 0; 0; 0])%nat)
    by (unfold clamp_top_k, TOP_K_MIN, TOP_K_MAX; simpl; lia).
  split.
  - destruct (topk_returns stable_torch_spec demo_adapter [0; 0; 0; 0; 0] 5 Hlen)
      as [res [_ [_ Heq]]]. now exists (map (ranked_entry demo_adapter) res).
  - intros T torch_ok ranking Ht Hstrict.
    destruct (topk_returns torch_ok demo_adapter [0; 0; 0; 0; 0] 5 Hlen)
      as [res [_ [Hpost Heq]]].
    rewrite Heq in Ht. inversion Ht; subst ranking. clear Ht Heq.
    pose proof (topk_length _ _ _ Hpost) as Hcount.
    assert (Hall : forall v i, In (v, i) res -> v = 0 - logsumexp [0; 0; 0; 0; 0]).
    { intros v i Hin. apply (topk_entries _ _ _ Hpost) in Hin.
      apply nth_error_In in Hin. unfold log_softmax in Hin. simpl in Hin.
      intuition congruence. }
    destruct res as [|[v1 i1] [|[v2 i2] res]]; try discriminate.
    simpl in Hstrict. inversion Hstrict as [|? ? _ Hhd]; subst.
    apply Forall_inv in Hhd. simpl in Hhd.
    rewrite (Hall v1 i1), (Hall v2 i2) in Hhd by (simpl; auto). lra.
Qed.

(** ** Determinism of the ranking and the order of ties *)

(** C5, amended. [topk] is a function of the distribution and of the clamped
    [k]: two logit vectors with the same log-probabilities and two values of
    [k] with the same clamp give the same ordered list. The list follows the
    order in which [torch.topk] returned the selected entries, entries of
    equal log-probability included: the code adds no rule of its own for
    them. *)
Theorem topk_deterministic (T : Torch) (torch_ok : TorchSpec T)
    (self : HuggingFaceAdapter.t) (logits1 logits2 : list R) (k1 k2 : Z) :
  log_softmax logits1 = log_softmax logits2 ->
  clamp_top_k k1 = clamp_top_k k2 ->
  (Z.to_nat (clamp_top_k k1) <= List.length logits1)%nat ->
  topk self logits1 k1 = topk self logits2 k2 /\
  exists selected,
    torch_topk (log_softmax logits1) (Z.to_nat (clamp_top_k k1)) = inr selected /\
    topk self logits1 k1 = inr (map (ranked_entry self) selected) /\
    map (fun t => (TokenDict.logprob t, TokenDict.token_id t))
        (map (ranked_entry self) selected) = selected.
Proof.
  intros Hdist Hk Hlen. split.
  - unfold topk. fold (clamp_top_k k1) (clamp_top_k k2). now rewrite Hdist, Hk.
  - destruct (topk_returns torch_ok self logits1 k1 Hlen) as [res [Hres [_ Heq]]].
    exists res. split; [exact Hres|]. split; [exact Heq|].
    rewrite map_map. simpl. rewrite <- (map_id res) at 2.
    apply map_ext. now intros [v i].
Qed.

Lemma topk_deterministic_witness :
  log_softmax demo_logits = log_softmax demo_logits /\
  clamp_top_k 1 = clamp_top_k 5 /\
  @topk stable_torch demo_adapter demo_logits 1 = @topk stable_torch demo_adapter demo_logits 5.
Proof.
  assert (Hk : clamp_top_k 1 = clamp_top_k 5) by reflexivity.
  assert (Hlen : (Z.to_nat (clamp_top_k 1) <= List.length demo_logits)%nat)
    by (unfold clamp_top_k, TOP_K_MIN, TOP_K_MAX, demo_logits; simpl; lia).
  split; [reflexivity|]. split; [exact Hk|].
  exact (proj1 (topk_deterministic stable_torch stable_torch_spec demo_adapter
                  demo_logits demo_logits 1 5 eq_refl Hk Hlen)).
Defined.

Lemma reversed_ties_topk_zeros :
  let lp := 0 - logsumexp [0; 0; 0; 0; 0] in
  @torch_topk reversed_ties_torch (log_softmax [0; 0; 0; 0; 0]) 5 =
    inr [(lp, 4); (lp, 3); (lp, 2); (lp, 1); (lp, 0)]%nat.
Proof.
  intros lp. simpl. unfold reference_topk, reference_sort, log_softmax. simpl.
  fold lp.
  repeat (destruct (Rlt_dec lp lp) as [Hlt|_]; [exfalso; lra|]; simpl).
  reflexivity.
Qed.

(** C5, as stated, fails on five equal logits: with a [torch.topk] that
    meets its documentation, two entries of equal log-probability come with
    the larger token id first. *)
Lemma topk_ties_larger_id_first :
  TorchSpec reversed_ties_torch /\
  exists a b rest,
    @topk reversed_ties_torch demo_adapter [0; 0; 0; 0; 0] 5 = inr (a :: b :: rest) /\
    TokenDict.logprob a = TokenDict.logprob b /\
    (TokenDict.token_id b < TokenDict.token_id a)%nat.
Proof.
  split; [exact reversed_ties_torch_spec|].
  assert (Hlen : (Z.to_nat (clamp_top_k 5) <= List.length [0; 0; 0; 0; 0])%nat)
    by (unfold clamp_top_k, TOP_K_MIN, TOP_K_MAX; simpl; lia).
  destruct (topk_returns reversed_ties_torch_spec demo_adapter [0; 0; 0; 0; 0] 5 Hlen)
    as [res [Hres [_ Heq]]].
  change (Z.to_nat (clamp_top_k 5)) with 5%nat in Hres.
  rewrite reversed_ties_topk_zeros in Hres. inversion Hres; subst res. clear Hres.
  simpl in Heq. do 3 eexists. split; [exact Heq|]. simpl. split; [reflexivity|lia].
Qed.

(** ** The context window cap *)

Lemma last_n_suffix {A : Type} (n : nat) (l : list A) :
  (n <= List.length l)%nat ->
  List.length (last_n n l) = n /\ exists older, l = older ++ last_n n l.
Proof.
  intros Hn. unfold last_n. split.
  - rewrite length_skipn. lia.
  - exists (firstn (List.length l - n) l). symmetry. apply firstn_skipn.
Qed.

(** C6. When the tokenization of the text has more than 512 ids, [tokenize]
    keeps exactly 512 of them, the last ones, in their order; a tokenization
    of at most 512 ids is returned unchanged. *)
Theorem tokenize_context_cap (self : HuggingFaceAdapter.t) (text : pystr) :
  ((512 < List.length (HuggingFaceAdapter.encode self text))%nat ->
   List.length (TokenizeResult.ids (tokenize self text)) = 512%nat /\
   exists older,
     HuggingFaceAdapter.encode self text = older ++ TokenizeResult.ids (tokenize self text)) /\
  ((List.length (HuggingFaceAdapter.encode self text) <= 512)%nat ->
   TokenizeResult.ids (tokenize self text) = HuggingFaceAdapter.encode self text).
Proof.
  unfold tokenize, CONTEXT_CAP_TOKENS. simpl. split; intros Hlen.
  - destruct (Nat.ltb_spec 512 (List.length (HuggingFaceAdapter.encode self text))); [|lia].
    apply last_n_suffix. lia.
  - destruct (Nat.ltb_spec 512 (List.length (HuggingFaceAdapter.encode self text))); [lia|].
    reflexivity.
Qed.

Lemma tokenize_context_cap_witness :
  (512 < List.length (HuggingFaceAdapter.encode demo_adapter (repeat 97%N 2000)))%nat /\
  List.length (TokenizeResult.ids (tokenize demo_adapter (repeat 97%N 2000))) = 512%nat /\
  (List.length (HuggingFaceAdapter.encode demo_adapter (py "abc")) <= 512)%nat /\
  TokenizeResult.ids (tokenize demo_adapter (py "abc")) = [1; 2; 3]%nat.
Proof.
  assert (Hlong : (512 < List.length (HuggingFaceAdapter.encode demo_adapter
                                         (repeat 97%N 2000)))%nat)
    by (apply Nat.ltb_lt; vm_compute; reflexivity).
  assert (Hshort : (List.length (HuggingFaceAdapter.encode demo_adapter (py "abc")) <= 512)%nat)
    by (apply Nat.leb_le; vm_compute; reflexivity).
  split; [exact Hlong|].
  split; [exact (proj1 (proj1 (tokenize_context_cap demo_adapter (repeat 97%N 2000)) Hlong))|].
  split; [exact Hshort|].
  rewrite (proj2 (tokenize_context_cap demo_adapter (py "abc")) Hshort). reflexivity.
Defined.

(** ** Stochastic selection and [k] *)

(** C10. In mode ["stochastic"], two calls of [choose] that differ only in
    [k] return the same result, hence the same token id, probability,
    log-probability and surprisal: [k] is clamped and not used. *)
Theorem choose_stochastic_ignores_k (T : Torch) (self : HuggingFaceAdapter.t)
    (logits : list R) (temperature top_p : option R) (g : Generator) (k1 k2 : Z) :
  choose self logits (py "stochastic") k1 temperature top_p g =
  choose self logits (py "stochastic") k2 temperature top_p g.
Proof. unfold choose. reflexivity. Qed.

(** ** Request validation and unsupported modes *)

Lemma pystr_eqb_false (a b : pystr) : a <> b -> pystr_eqb a b = false.
Proof. intros H. unfold pystr_eqb. now destruct (list_eq_dec N.eq_dec a b). Qed.

Lemma choose_unsupported (T : Torch) (self : HuggingFaceAdapter.t) (logits : list R)
    (mode : pystr) (k : Z) (temperature top_p : option R) (g : Generator) :
  mode <> py "argmax" -> mode <> py "stochastic" ->
  choose self logits mode k temperature top_p g
    = inl (ValueError (py "Unsupported mode: " ++ mode)).
Proof.
  intros Ha Hs. unfold choose.
  now rewrite (pystr_eqb_false _ _ Ha), (pystr_eqb_false _ _ Hs).
Qed.



(** ** The soft bias *)

Lemma set_nth_length {A : Type} (i : nat) (v : A) (l : list A) :
  List.length (set_nth i v l) = List.length l.
Proof.
  revert i. induction l as [|x l IH]; intros [|i]; simpl; try reflexivity.
  now rewrite IH.
Qed.

Lemma nth_error_set_nth {A : Type} (i j : nat) (v : A) (l : list A) :
  (i < List.length l)%nat ->
  nth_error (set_nth i v l) j = if Nat.eqb j i then Some v else nth_error l j.
Proof.
  revert i j. induction l as [|x l IH]; intros i j Hi; simpl in Hi; [lia|].
  destruct i as [|i], j as [|j]; simpl; try reflexivity.
  apply IH. lia.
Qed.

(** One adjustment of the bias: it succeeds when the id, if there is one,
    is an index of the tensor, and changes that entry alone. *)
Lemma bias_stage (id : option nat) (logits : list R) :
  (forall i, id = Some i -> (i < List.length logits)%nat) ->
  exists biased,
    match id with
    | Some i => subtract_at logits i 2.0
    | None => ret logits
    end = inr biased /\
    List.length biased = List.length logits /\
    forall j y, nth_error logits j = Some y ->
                nth_error biased j = Some (y - bias_offset id j).
Proof.
  intros Hin. destruct id as [i|]; simpl.
  - specialize (Hin i eq_refl).
    destruct (nth_error logits i) as [x|] eqn:Hx;
      [|apply nth_error_None in Hx; lia].
    exists (set_nth i (x - 2.0) logits).
    unfold subtract_at, index, assign. rewrite Hx. simpl. try rewrite Hx.
    split; [reflexivity|]. split; [apply set_nth_length|].
    intros j y Hj. rewrite nth_error_set_nth by assumption.
    destruct (Nat.eqb_spec j i) as [->|Hne].
    + rewrite Hx in Hj. now inversion Hj.
    + rewrite Hj. f_equal. lra.
  - exists logits. split; [reflexivity|]. split; [reflexivity|].
    intros j y Hj. rewrite Hj. f_equal. lra.
Qed.

Lemma next_dist_never_softens (T : Torch) (adapter : option HuggingFaceAdapter.t)
    (request : NextDistRequestModel.t) (response : Response NextDistResponseModel.t)
    (trace : list Call) (ids : list nat) (soften : option bool) :
  next_dist adapter request = (response, trace) ->
  In (Call_forward_last ids soften) trace ->
  soften = Some false.
Proof.
  unfold next_dist. destruct adapter as [self|]; [|intros H; inversion H; contradiction].
  destruct (NextDistRequestModel.top_k request <? 1)%Z;
    [intros H; inversion H; contradiction|].
  destruct (MAX_PAYLOAD_SIZE <? _)%Z; [intros H; inversion H; contradiction|].
  unfold call, tbind, tret, ret. cbv beta iota.
  destruct (forward_last self _ (Some false)) as [e|logits].
  - destruct e; intros H; inversion H; subst; simpl; intuition congruence.
  - destruct (topk self logits _) as [e|ranking].
    + destruct e; intros H; inversion H; subst; simpl; intuition congruence.
    + intros H; inversion H; subst; simpl; intuition congruence.
Qed.

(** C8. When the bias is requested and the ids of the newline token and of
    the end-of-text token are indices of the logits, [forward_last] returns
    the logits of the model with 2.0 subtracted at the newline id and 2.0
    subtracted at the end-of-text id, an undefined id being skipped, and
    every other entry unchanged; every entry stays a finite number. Without
    the request the logits are those of the model. [/next_dist] only calls
    [forward_last] without the bias, and [/step] computes the ranking and
    the chosen token from the logits [forward_last] returned, bias applied. *)
Theorem forward_last_soft_bias (T : Torch) (self : HuggingFaceAdapter.t) (ids : list nat) :
  let logits := HuggingFaceAdapter.last_logits self ids in
  let newline_id := hd_error (HuggingFaceAdapter.encode self [10%N]) in
  let eos_id := HuggingFaceAdapter.eos_token_id self in
  ((forall i, newline_id = Some i -> (i < List.length logits)%nat) ->
   (forall i, eos_id = Some i -> (i < List.length logits)%nat) ->
   exists biased,
     forward_last self ids (Some true) = inr biased /\
     List.length biased = List.length logits /\
     forall i x, nth_error logits i = Some x ->
       nth_error biased i = Some (x - bias_offset newline_id i - bias_offset eos_id i)) /\
  (forall soften, soften <> Some true -> forward_last self ids soften = inr logits) /\
  (forall adapter request response trace ids' soften,
      next_dist adapter request = (response, trace) ->
      In (Call_forward_last ids' soften) trace -> soften = Some false) /\
  (forall request g body trace,
      step (Some self) request g = (Success body, trace) ->
      exists biased ranking chosen,
        forward_last self (step_ids self request)
          (StepRequestModel.soften_newline_eot request) = inr biased /\
        topk self biased (main.clamp_top_k (StepRequestModel.top_k request)) = inr ranking /\
        choose self biased (StepRequestModel.mode request)
          (main.clamp_top_k (StepRequestModel.top_k request))
          (step_temperature request) (step_top_p request) g = inr chosen /\
        StepResponseModel.topk body
          = map TokenInfoModel.of_dict (merge_chosen chosen ranking) /\
        StepResponseModel.chosen body = TokenInfoModel.of_dict chosen).
Proof.
  intros logits newline_id eos_id. split; [|split; [|split]].
  - intros Hnl Heos.
    destruct (bias_stage newline_id logits Hnl) as [stage1 [H1 [Hlen1 Hnth1]]].
    assert (Heos' : forall i, eos_id = Some i -> (i < List.length stage1)%nat)
      by (intros i Hi; rewrite Hlen1; now apply Heos).
    destruct (bias_stage eos_id stage1 Heos') as [stage2 [H2 [Hlen2 Hnth2]]].
    exists stage2. split; [|split].
    + unfold forward_last. simpl. fold logits newline_id eos_id.
      rewrite H1. simpl. rewrite H2. reflexivity.
    + congruence.
    + intros i x Hx. apply Hnth1 in Hx. now apply Hnth2 in Hx.
  - intros soften Hs. unfold forward_last.
    destruct soften as [[|]|]; simpl; solve [reflexivity | congruence].
  - intros adapter request response trace ids' soften.
    apply next_dist_never_softens.
  - intros request g body trace Hstep.
    destruct (step_success_inv self request g body trace Hstep)
      as [biased [ranking [chosen [_ [_ [Hf [Ht [Hc [Hbody _]]]]]]]]].
    exists biased, ranking, chosen. subst body. simpl. repeat split; assumption.
Qed.

Lemma forward_last_soft_bias_witness :
  exists biased,
    forward_last demo_adapter [] (Some true) = inr biased /\
    nth_error biased 0 = Some (3 - 0 - 2.0) /\
    nth_error biased 1 = Some (1 - 0 - 0) /\
    nth_error biased 2 = Some (4 - 2.0 - 0).
Proof.
  destruct (proj1 (forward_last_soft_bias stable_torch demo_adapter []))
    as [biased [Hf [_ Hnth]]].
  - intros i Hi. inversion Hi. simpl. lia.
  - intros i Hi. inversion Hi. simpl. lia.
  - exists biased. split; [exact Hf|].
    split; [exact (Hnth 0%nat 3 eq_refl)|].
    split; [exact (Hnth 1%nat 1 eq_refl)|exact (Hnth 2%nat 4 eq_refl)].
Defined.

(** ** The nucleus filter *)

(** A descending arrangement of entries with pairwise distinct values is
    unique: on such a tensor every [torch.sort] returns the same pairs. *)
Lemma sorted_perm_unique (l l' : list (R * nat)) :
  StronglySorted descending l ->
  StronglySorted (fun a b => fst a > fst b) l' ->
  Permutation l l' ->
  l = l'.
Proof.
  revert l. induction l' as [|x' r' IH]; intros l Hs Hs' Hp.
  - now apply Permutation_sym, Permutation_nil in Hp.
  - destruct l as [|x r]; [now apply Permutation_nil in Hp|].
    inversion Hs as [|? ? Hsr Hall]; subst.
    inversion Hs' as [|? ? Hsr' Hall']; subst.
    rewrite Forall_forall in Hall, Hall'.
    assert (Hx : x = x').
    { assert (Hin : In x (x' :: r')) by (apply (Permutation_in _ Hp); now left).
      assert (Hin' : In x' (x :: r))
        by (apply (Permutation_in _ (Permutation_sym Hp)); now left).
      destruct Hin as [Heq|Hin]; [now symmetry|].
      destruct Hin' as [Heq|Hin']; [exact Heq|].
      apply Hall' in Hin. apply Hall in Hin'. unfold descending in Hin'. lra. }
    subst x'. f_equal. apply IH; try assumption.
    now apply Permutation_cons_inv in Hp.
Qed.

Lemma nucleus_filter_three (T : Torch) (torch_ok : TorchSpec T) (p0 p1 p2 top_p : R) :
  p0 > p1 -> p1 > p2 -> p2 > 0 ->
  p0 <= top_p -> top_p < p0 + p1 ->
  nucleus_filter [p0; p1; p2] top_p = inr [1; 0; 0].
Proof.
  intros H01 H12 H2 Hkeep Hdrop. unfold nucleus_filter.
  assert (Hsort : torch_sort_descending [p0; p1; p2] = [(p0, 0); (p1, 1); (p2, 2)]%nat).
  { apply sorted_perm_unique.
    - apply (sort_sorted _ torch_ok).
    - repeat constructor; simpl; lra.
    - apply (sort_permutation _ torch_ok). }
  rewrite Hsort. unfold cumsum, Rleb. simpl.
  destruct (Rle_dec (0 + p0) top_p) as [_|Hn]; [|exfalso; lra].
  destruct (Rle_dec (0 + p0 + p1) top_p) as [Hn|_]; [exfalso; lra|].
  destruct (Rle_dec (0 + p0 + p1 + p2) top_p) as [Hn|_]; [exfalso; lra|].
  simpl. unfold ret. f_equal.
  repeat (f_equal; try (field; lra)).
Qed.

Lemma div_le_of (x y z : R) : 0 < z -> x <= y * z -> x / z <= y.
Proof.
  intros Hz H. apply (Rmult_le_reg_r z); [exact Hz|].
  replace (x / z * z) with x by (field; lra). exact H.
Qed.

Lemma lt_div_of (x y z : R) : 0 < z -> y * z < x -> y < x / z.
Proof.
  intros Hz H. apply (Rmult_lt_reg_r z); [exact Hz|].
  replace (x / z * z) with x by (field; lra). exact H.
Qed.

(** The probabilities of the logits [1, 0, -1] at temperature 1: about
    0.665, 0.245 and 0.090. *)
Lemma softmax_demo_bounds :
  exists p0 p1 p2,
    softmax (map (fun x => x / 1.0) [1; 0; -1]) = [p0; p1; p2] /\
    p0 > p1 /\ p1 > p2 /\ p2 > 0 /\ p0 < 0.8 /\ 0.8 < p0 + p1.
Proof.
  unfold softmax. simpl.
  replace (1 / 1.0) with 1 by lra. replace (0 / 1.0) with 0 by lra.
  replace (-1 / 1.0) with (- (1)) by lra.
  rewrite exp_0, exp_Ropp.
  pose proof (exp_ineq1 1 ltac:(lra)) as Hlow. pose proof exp_le_3 as Hup.
  set (a := exp 1) in *. set (c := / a).
  assert (Hc : c * a = 1) by (unfold c; field; lra).
  assert (Hc0 : 0 < c) by (apply Rinv_pos; lra).
  assert (Hc1 : c < 1 / 2) by nra.
  set (z := a + (1 + (c + 0))).
  assert (Hz : 0 < z) by (unfold z; lra).
  exists (a / z), (1 / z), (c / z). split; [reflexivity|]. repeat split.
  - apply Rlt_gt, lt_div_of; [lra|]. replace (1 / z * z) with 1 by (field; lra). lra.
  - apply Rlt_gt, lt_div_of; [lra|]. replace (c / z * z) with c by (field; lra). lra.
  - apply Rlt_gt, lt_div_of; lra.
  - assert (H : a / z <= 0.79); [|lra].
    apply div_le_of; [lra|]. unfold z. nra.
  - replace (a / z + 1 / z) with ((a + 1) / z) by (field; lra).
    apply lt_div_of; [lra|]. unfold z. nra.
Qed.

(** C1, on the logits [1, 0, -1] with temperature 1 and [top_p = 0.8]. The
    filter keeps the first token alone, with all the mass after
    renormalisation, although its probability is below [top_p]; the second
    token, which the smallest prefix of cumulative probability at least
    [top_p] contains, is zeroed, and [choose] draws from [1, 0, 0]. *)
Theorem nucleus_filter_stops_below_top_p (T : Torch) (torch_ok : TorchSpec T)
    (self : HuggingFaceAdapter.t) (k : Z) (g : Generator) :
  let logits := [1; 0; -1] in
  let probs := softmax (map (fun x => x / 1.0) logits) in
  nucleus_filter probs 0.8 = inr [1; 0; 0] /\
  nth 0 probs 0 < 0.8 /\
  0.8 < nth 0 probs 0 + nth 1 probs 0 /\
  (forall chosen,
      choose self logits (py "stochastic") k (Some 1.0) (Some 0.8) g = inr chosen ->
      torch_multinomial g [1; 0; 0] = inr (TokenDict.token_id chosen)).
Proof.
  intros logits probs.
  destruct softmax_demo_bounds as [p0 [p1 [p2 [Hp [H01 [H12 [H2 [Hlow Hhigh]]]]]]]].
  fold logits probs in Hp.
  assert (Hfilter : nucleus_filter probs 0.8 = inr [1; 0; 0]).
  { rewrite Hp. apply nucleus_filter_three; try assumption; lra. }
  split; [exact Hfilter|]. split; [rewrite Hp; exact Hlow|].
  split; [rewrite Hp; exact Hhigh|].
  intros chosen. unfold choose.
  replace (pystr_eqb (py "stochastic") (py "argmax")) with false by reflexivity.
  replace (pystr_eqb (py "stochastic") (py "stochastic")) with true by reflexivity.
  destruct (Rlt_dec 0 1.0) as [_|Hn]; [|exfalso; lra].
  destruct (Rlt_dec 0.8 1.0) as [_|Hn]; [|exfalso; lra].
  fold logits. fold probs. rewrite Hfilter. simpl.
  destruct (torch_multinomial g [1; 0; 0]) as [e|idx]; simpl; [discriminate|].
  destruct (index [1; 0; 0] idx) as [e|chosen_prob]; simpl; [discriminate|].
  intros H. inversion H. reflexivity.
Qed.

Lemma nucleus_filter_stops_below_top_p_witness :
  @nucleus_filter stable_torch (softmax (map (fun x => x / 1.0) [1; 0; -1])) 0.8
  = inr [1; 0; 0].
Proof.
  exact (proj1 (nucleus_filter_stops_below_top_p stable_torch stable_torch_spec
                  demo_adapter 5 0)).
Defined.

(** ** The display of a lone newline *)


(** A string of [n + 2] spaces is labelled with its count. *)
Lemma make_token_display_spaces (n : nat) :
  make_token_display (repeat 32%N (S (S n)))
  = [SYM_SPACE; SYM_TIMES] ++ format_d (N.of_nat (S (S n))).
Proof.
  assert (Hs : forall m, forallb char_isspace (repeat 32%N m) = true)
    by (induction m; simpl; auto).
  assert (Hc : forall m, count 32%N (repeat 32%N m) = m).
  { unfold count. induction m; simpl; auto. }
  unfold make_token_display, isspace.
  change (repeat 32%N (S (S n))) with (32%N :: repeat 32%N (S n)) at 1 2.
  cbv beta iota. rewrite Hs, Hc, repeat_length, Nat.eqb_refl. reflexivity.
Qed.

(** A string of whitespace that is not all spaces is labelled with its
    length. *)
Lemma make_token_display_mixed (s : pystr) :
  isspace s = true -> count 32%N s <> List.length s ->
  make_token_display s = [SYM_SPACE; SYM_TIMES] ++ format_d (N.of_nat (List.length s)).
Proof.
  intros Hs Hc. unfold make_token_display. destruct s as [|c s]; [discriminate|].
  rewrite Hs. cbv zeta. now rewrite (proj2 (Nat.eqb_neq _ _) Hc).
Qed.

(** ** The nucleus filter in general *)

Lemma cumsum_from_length (acc : R) (xs : list R) :
  List.length (cumsum_from acc xs) = List.length xs.
Proof. revert acc. induction xs as [|x xs IH]; intros acc; simpl; [reflexivity|]. now rewrite IH. Qed.

Lemma cumsum_from_above (acc : R) (xs : list R) :
  Forall (fun p => 0 < p) xs ->
  Forall (fun c => acc < c) (cumsum_from acc xs).
Proof.
  intros Hpos. revert acc. induction Hpos as [|x xs Hx Hxs IH]; intros acc; simpl.
  - constructor.
  - constructor; [lra|].
    eapply Forall_impl; [|apply IH]. simpl. intros c Hc. lra.
Qed.

Lemma mask_all_false (top_p : R) (cs : list R) :
  Forall (fun c => top_p < c) cs ->
  map (fun c => Rleb c top_p) cs = repeat false (List.length cs).
Proof.
  induction 1 as [|c cs Hc Hcs IH]; simpl; [reflexivity|].
  rewrite IH. unfold Rleb. destruct (Rle_dec c top_p); [lra|reflexivity].
Qed.

(** On positive entries the running sums increase, so the comparison with
    [top_p] holds on a prefix and fails after it. *)
Lemma mask_is_prefix (top_p acc : R) (xs : list R) :
  Forall (fun p => 0 < p) xs ->
  exists n,
    (n <= List.length xs)%nat /\
    map (fun c => Rleb c top_p) (cumsum_from acc xs)
      = repeat true n ++ repeat false (List.length xs - n) /\
    ((0 < n)%nat -> acc + Rsum (firstn n xs) <= top_p) /\
    ((n < List.length xs)%nat -> top_p < acc + Rsum (firstn (S n) xs)).
Proof.
  intros Hpos. revert acc. induction Hpos as [|x xs Hx Hxs IH]; intros acc.
  - exists 0%nat. simpl. repeat split; try lia.
  - simpl. unfold Rleb at 1. destruct (Rle_dec (acc + x) top_p) as [Hle|Hgt].
    + destruct (IH (acc + x)) as [n [Hn [Hmask [Hin Hout]]]].
      exists (S n). simpl. split; [lia|]. split; [now rewrite Hmask|]. split.
      * intros _. destruct n as [|n]; [simpl; lra|].
        specialize (Hin ltac:(lia)). lra.
      * intros Hlt. specialize (Hout ltac:(lia)). simpl in Hout. lra.
    + exists 0%nat. simpl. split; [lia|]. split; [|split; [lia|intros _; lra]].
      f_equal. rewrite <- (cumsum_from_length (acc + x) xs).
      apply mask_all_false.
      eapply Forall_impl; [|apply (cumsum_from_above (acc + x) xs Hxs)].
      simpl. intros c Hc. lra.
Qed.

Lemma existsb_repeat_false (n : nat) : existsb (fun b : bool => b) (repeat false n) = false.
Proof. induction n; simpl; auto. Qed.

(** The entries a mask of [n] times [True] selects are the first [n]. *)
Lemma filter_mask_prefix {A : Type} (n m : nat) (l : list A) :
  List.length l = (n + m)%nat ->
  map snd (filter fst (combine (repeat true n ++ repeat false m) l)) = firstn n l.
Proof.
  revert l. induction n as [|n IH]; intros l Hlen; simpl.
  - revert l Hlen. induction m as [|m IHm]; intros [|x l] Hlen; simpl in *;
      try reflexivity; try discriminate.
    apply IHm. lia.
  - destruct l as [|x l]; [discriminate|]. simpl. f_equal. apply IH. simpl in Hlen. lia.
Qed.

Lemma Rsum_set_nth (i : nat) (v x : R) (l : list R) :
  nth_error l i = Some x -> Rsum (set_nth i v l) = Rsum l - x + v.
Proof.
  revert i. induction l as [|y l IH]; intros [|i] H; simpl in *; try discriminate.
  - inversion H. lra.
  - rewrite (IH i H). lra.
Qed.

Lemma Rsum_repeat_zero (n : nat) : Rsum (repeat 0 n) = 0.
Proof. induction n as [|n IH]; simpl; [reflexivity|]. rewrite IH. lra. Qed.

Lemma Rsum_map_div (total : R) (xs : list R) :
  Rsum (map (fun x => x / total) xs) = Rsum xs / total.
Proof.
  induction xs as [|x xs IH]; simpl; [unfold Rdiv; ring|]. rewrite IH. unfold Rdiv. ring.
Qed.

Lemma Rsum_pos (xs : list R) : Forall (fun p => 0 < p) xs -> xs <> [] -> 0 < Rsum xs.
Proof.
  intros H Hne. destruct H as [|x xs Hx Hxs]; [congruence|]. simpl.
  assert (0 <= Rsum xs); [|lra].
  clear Hne Hx. induction Hxs as [|y ys Hy Hys IH]; simpl; lra.
Qed.

Lemma Rsum_firstn_mono (n : nat) (xs : list R) :
  Forall (fun p => 0 < p) xs -> Rsum (firstn n xs) <= Rsum (firstn (S n) xs).
Proof.
  intros H. revert n. induction H as [|x xs Hx Hxs IH]; intros [|n]; simpl in *; try lra.
  specialize (IH n). simpl in IH. lra.
Qed.

(** The assignment [filtered_probs[indices] = values] on a tensor that holds
    zero at those indices, for distinct indices in range. *)
Lemma scatter_spec (kept : list (nat * R)) (init : list R) :
  NoDup (map fst kept) ->
  (forall i v, In (i, v) kept -> nth_error init i = Some 0) ->
  exists out,
    fold_left (fun acc iv => (acc <- acc ;; assign acc (fst iv) (snd iv))%result)
      kept (ret init) = inr out /\
    List.length out = List.length init /\
    (forall i v, In (i, v) kept -> nth_error out i = Some v) /\
    (forall i, ~ In i (map fst kept) -> nth_error out i = nth_error init i) /\
    Rsum out = Rsum init + Rsum (map snd kept).
Proof.
  revert init. induction kept as [|[i v] kept IH]; intros init Hnd Hzero; simpl.
  - exists init. repeat split; try reflexivity; try contradiction. lra.
  - simpl in Hnd. inversion Hnd as [|? ? Hnotin Hnd']; subst.
    pose proof (Hzero i v (or_introl eq_refl)) as Hi.
    assert (Hlt : (i < List.length init)%nat) by (apply nth_error_Some; congruence).
    unfold assign at 2. rewrite Hi. simpl.
    destruct (IH (set_nth i v init) Hnd') as [out [Hfold [Hlen [Hin [Hout Hsum]]]]].
    + intros j w Hj. rewrite nth_error_set_nth by assumption.
      destruct (Nat.eqb_spec j i) as [->|Hne].
      * exfalso. apply Hnotin. change i with (fst (i, w)). now apply in_map.
      * apply (Hzero j w). now right.
    + exists out. split; [exact Hfold|]. split; [now rewrite Hlen, set_nth_length|].
      split; [|split].
      * intros j w [Heq|Hj]; [|now apply Hin].
        inversion Heq; subst. rewrite (Hout j Hnotin).
        rewrite nth_error_set_nth, Nat.eqb_refl by assumption. reflexivity.
      * intros j Hj. rewrite Hout by tauto.
        rewrite nth_error_set_nth by assumption.
        destruct (Nat.eqb_spec j i) as [->|Hne]; [tauto|reflexivity].
      * rewrite Hsum, (Rsum_set_nth i v 0 init Hi). lra.
Qed.

Lemma NoDup_app_disjoint {A : Type} (l1 l2 : list A) (a : A) :
  NoDup (l1 ++ l2) -> In a l1 -> In a l2 -> False.
Proof.
  induction l1 as [|x l1 IH]; simpl; intros Hnd H1 H2; [contradiction|].
  inversion Hnd as [|? ? Hnotin Hnd']; subst. destruct H1 as [->|H1].
  - apply Hnotin, in_or_app. now right.
  - now apply IH.
Qed.

Lemma combine_snd_fst (l : list (R * nat)) :
  combine (map snd l) (map fst l) = map (fun p => (snd p, fst p)) l.
Proof. induction l as [|[v i] l IH]; simpl; [reflexivity|]. now rewrite IH. Qed.

(** The rest of the filter once the mask keeps the first [n] sorted entries. *)
Lemma nucleus_tail (probs : list R) (sorted : list (R * nat)) (n : nat) :
  Permutation sorted (enumerate probs) ->
  Forall (fun p => 0 < p) probs ->
  (1 <= n <= List.length probs)%nat ->
  let mask := repeat true n ++ repeat false (List.length probs - n) in
  let kept := map snd (filter fst (combine mask (combine (map snd sorted) (map fst sorted)))) in
  let mass := Rsum (map fst (firstn n sorted)) in
  exists filtered,
    (filtered_probs <- fold_left
       (fun acc iv => acc <- acc ;; assign acc (fst iv) (snd iv))
       kept (ret (repeat 0 (List.length probs))) ;;
     ret (map (fun x => x / Rsum filtered_probs) filtered_probs))%result = inr filtered /\
    List.length filtered = List.length probs /\
    (forall v i, In (v, i) (firstn n sorted) -> nth_error filtered i = Some (v / mass)) /\
    (forall v i, In (v, i) (skipn n sorted) -> nth_error filtered i = Some 0) /\
    Rsum filtered = 1.
Proof.
  intros Hperm Hpos Hn mask kept mass.
  assert (Hlen : List.length sorted = List.length probs)
    by (rewrite (Permutation_length Hperm); apply enumerate_length).
  assert (Hrange : forall v i, In (v, i) sorted -> nth_error probs i = Some v).
  { intros v i Hin. apply in_enumerate. now apply (Permutation_in _ Hperm). }
  assert (Hnd : NoDup (map snd sorted)).
  { apply (Permutation_NoDup (l := seq 0 (List.length probs))); [|apply seq_NoDup].
    rewrite <- enumerate_indices. symmetry. now apply Permutation_map. }
  assert (Hkept : kept = map (fun p => (snd p, fst p)) (firstn n sorted)).
  { unfold kept, mask. rewrite filter_mask_prefix.
    - rewrite combine_snd_fst. apply firstn_map.
    - rewrite length_combine, !length_map, Hlen, Nat.min_id. lia. }
  assert (Hsplit : sorted = firstn n sorted ++ skipn n sorted)
    by (symmetry; apply firstn_skipn).
  assert (Hkept_ids : map fst kept = map snd (firstn n sorted))
    by (rewrite Hkept, map_map; reflexivity).
  assert (Hkept_vals : map snd kept = map fst (firstn n sorted))
    by (rewrite Hkept, map_map; reflexivity).
  assert (Hin_kept : forall i v, In (i, v) kept <-> In (v, i) (firstn n sorted)).
  { intros i v. rewrite Hkept, in_map_iff. split.
    - intros [[v' i'] [Heq Hin]]. simpl in Heq. now inversion Heq; subst.
    - intros Hin. now exists (v, i). }
  destruct (scatter_spec kept (repeat 0 (List.length probs)))
    as [out [Hfold [Hlen_out [Hin [Hout Hsum]]]]].
  - rewrite Hkept_ids. rewrite Hsplit, map_app in Hnd. now apply NoDup_app_remove_r in Hnd.
  - intros i v Hiv. apply Hin_kept in Hiv.
    assert (Hs : In (v, i) sorted) by (rewrite Hsplit; apply in_or_app; now left).
    apply Hrange in Hs.
    assert (Hi : (i < List.length probs)%nat) by (apply nth_error_Some; congruence).
    rewrite nth_error_repeat by assumption. reflexivity.
  - rewrite Rsum_repeat_zero, Hkept_vals, Rplus_0_l in Hsum. fold mass in Hsum.
    assert (Hmass : 0 < mass).
    { unfold mass. apply Rsum_pos.
      - rewrite Forall_forall. intros v Hv. apply in_map_iff in Hv as [[v' i] [Heq Hv]].
        simpl in Heq; subst v'.
        assert (Hs : In (v, i) sorted) by (rewrite Hsplit; apply in_or_app; now left).
        apply Hrange, nth_error_In in Hs. rewrite Forall_forall in Hpos. now apply Hpos.
      - intros Hnil. apply (f_equal (@List.length R)) in Hnil.
        rewrite length_map, length_firstn, Hlen in Hnil. simpl in Hnil. lia. }
    exists (map (fun x => x / mass) out). rewrite Hfold. simpl. rewrite Hsum.
    split; [reflexivity|]. split; [now rewrite length_map, Hlen_out, repeat_length|].
    split; [|split].
    + intros v i Hiv. apply Hin_kept, Hin in Hiv. now rewrite nth_error_map, Hiv.
    + intros v i Hiv.
      assert (Hs : In (v, i) sorted) by (rewrite Hsplit; apply in_or_app; now right).
      apply Hrange in Hs.
      assert (Hi : (i < List.length probs)%nat) by (apply nth_error_Some; congruence).
      assert (Hnot : ~ In i (map fst kept)).
      { rewrite Hkept_ids. intros Hc. rewrite Hsplit, map_app in Hnd.
        apply (NoDup_app_disjoint _ _ i Hnd Hc).
        change i with (snd (v, i)). now apply in_map. }
      rewrite nth_error_map, (Hout i Hnot), nth_error_repeat by assumption.
      simpl. f_equal. unfold Rdiv. ring.
    + rewrite Rsum_map_div, Hsum. field. lra.
Qed.

(** What the nucleus filter keeps, for positive probabilities: the longest
    prefix of the descending-sorted entries whose cumulative probability is
    at most [top_p], and the first entry when there is none; the rest is
    zeroed and the kept mass is renormalised to sum to one. *)
Lemma nucleus_filter_prefix (T : Torch) (torch_ok : TorchSpec T)
    (probs : list R) (top_p : R) :
  probs <> [] ->
  Forall (fun p => 0 < p) probs ->
  exists n filtered,
    (1 <= n <= List.length probs)%nat /\
    nucleus_filter probs top_p = inr filtered /\
    List.length filtered = List.length probs /\
    (forall v i, In (v, i) (firstn n (torch_sort_descending probs)) ->
       nth_error filtered i
       = Some (v / Rsum (map fst (firstn n (torch_sort_descending probs))))) /\
    (forall v i, In (v, i) (skipn n (torch_sort_descending probs)) ->
       nth_error filtered i = Some 0) /\
    Rsum filtered = 1 /\
    (n = 1%nat \/ Rsum (map fst (firstn n (torch_sort_descending probs))) <= top_p) /\
    ((n < List.length probs)%nat ->
     top_p < Rsum (map fst (firstn (S n) (torch_sort_descending probs)))).
Proof.
  intros Hne Hpos.
  pose proof (sort_permutation _ torch_ok probs) as Hperm.
  set (sorted := torch_sort_descending probs) in *.
  assert (Hlen : List.length sorted = List.length probs)
    by (rewrite (Permutation_length Hperm); apply enumerate_length).
  assert (Hlen_pos : (0 < List.length probs)%nat)
    by (destruct probs; [congruence|simpl; lia]).
  assert (Hsp : Forall (fun p => 0 < p) (map fst sorted)).
  { rewrite Forall_forall. intros v Hv. apply in_map_iff in Hv as [[v' i] [Heq Hin]].
    simpl in Heq; subst v'. apply (Permutation_in _ Hperm), in_enumerate, nth_error_In in Hin.
    rewrite Forall_forall in Hpos. now apply Hpos. }
  destruct (mask_is_prefix top_p 0 (map fst sorted) Hsp) as [n0 [Hn0 [Hmask [Hin Hout]]]].
  rewrite length_map, Hlen in Hn0, Hmask, Hout.
  rewrite !firstn_map in Hout. rewrite firstn_map in Hin.
  assert (Hfloor : exists n,
             (1 <= n <= List.length probs)%nat /\
             (if negb (existsb (fun b => b)
                         (repeat true n0 ++ repeat false (List.length probs - n0)))
              then assign (repeat true n0 ++ repeat false (List.length probs - n0)) 0 true
              else ret (repeat true n0 ++ repeat false (List.length probs - n0)))
             = inr (repeat true n ++ repeat false (List.length probs - n)) /\
             (n = 1%nat \/ Rsum (map fst (firstn n sorted)) <= top_p) /\
             ((n < List.length probs)%nat ->
              top_p < Rsum (map fst (firstn (S n) sorted)))).
  { destruct n0 as [|n0].
    - exists 1%nat. split; [lia|]. cbn [repeat app].
      rewrite Nat.sub_0_r, existsb_repeat_false. cbn [negb].
      destruct (List.length probs) as [|m] eqn:Hm; [lia|].
      split; [|split; [now left|]].
      + cbn [repeat Nat.sub app]. rewrite Nat.sub_0_r. reflexivity.
      + intros Hlt. specialize (Hout ltac:(lia)).
        pose proof (Rsum_firstn_mono 1 (map fst sorted) Hsp) as Hmono.
        rewrite !firstn_map in Hmono. lra.
    - exists (S n0). split; [lia|]. split; [reflexivity|]. split.
      + right. specialize (Hin ltac:(lia)). lra.
      + intros Hlt. specialize (Hout Hlt). lra. }
  destruct Hfloor as [n [Hn [Hassign [Hkeep Hmax]]]].
  destruct (nucleus_tail probs sorted n Hperm Hpos Hn)
    as [filtered [Htail [Hlenf [Hkept [Hzero Hone]]]]].
  exists n, filtered. split; [exact Hn|]. split.
  - unfold nucleus_filter. fold sorted. unfold cumsum. rewrite Hmask, Hassign.
    exact Htail.
  - repeat split; assumption.
Qed.

(** ** Further properties of the distribution and of the response *)

Lemma Rsum_map_scale (f : R -> R) (c : R) (xs : list R) :
  Rsum (map (fun x => f x * c) xs) = Rsum (map f xs) * c.
Proof. induction xs as [|x xs IH]; simpl; [ring|]. rewrite IH. ring. Qed.

(** The log-probabilities of a non-empty logit vector are those of a
    distribution: their exponentials sum to one. *)
Lemma log_softmax_normalised (logits : list R) :
  logits <> [] -> Rsum (map exp (log_softmax logits)) = 1.
Proof.
  intros Hne. pose proof (Rsum_exp_pos logits Hne) as Hpos.
  unfold log_softmax, logsumexp. rewrite map_map.
  rewrite (map_ext _ (fun x => exp x * / Rsum (map exp logits))).
  - rewrite Rsum_map_scale. field. lra.
  - intros x. unfold Rminus. rewrite exp_plus, exp_Ropp, exp_ln by assumption.
    reflexivity.
Qed.

(** A greedy call on the demo adapter succeeds for every short text and
    every [top_k] from 1 to 8. *)
Lemma demo_step_succeeds (text : pystr) (top_k : Z) (soften : option bool) :
  (1 <= top_k <= 8)%Z ->
  (Z.of_nat (List.length text) <= MAX_PAYLOAD_SIZE)%Z ->
  truthy soften = false ->
  exists body trace,
    @step stable_torch (Some demo_adapter)
      (StepRequestModel.make text top_k (py "argmax") None None soften) 0
    = (Success body, trace).
Proof.
  intros Hk Hlen Hsoft.
  set (request := StepRequestModel.make text top_k (py "argmax") None None soften).
  assert (Hf : forward_last demo_adapter (step_ids demo_adapter request) soften
               = inr demo_logits).
  { unfold forward_last. rewrite Hsoft. reflexivity. }
  assert (Hlogits : (Z.to_nat (clamp_top_k (main.clamp_top_k top_k))
                     <= List.length demo_logits)%nat).
  { unfold clamp_top_k, main.clamp_top_k, TOP_K_MIN, TOP_K_MAX, main.TOP_K_MIN,
      main.TOP_K_MAX, demo_logits. simpl List.length. lia. }
  destruct (topk_returns stable_torch_spec demo_adapter demo_logits
              (main.clamp_top_k top_k) Hlogits) as [res [_ [_ Hrank]]].
  assert (Hne : demo_logits <> []) by discriminate.
  destruct (choose_argmax_returns stable_torch demo_adapter demo_logits
              (main.clamp_top_k top_k) None None 0 Hne) as [chosen Hc].
  do 2 eexists.
  apply (@step_success stable_torch demo_adapter request 0 demo_logits
           (map (ranked_entry demo_adapter) res) chosen); try assumption.
  simpl. lia.
Qed.

(** ** The definitions at work on the demo adapter *)

Ltac decide_comparisons :=
  repeat match goal with
         | |- context [Rlt_dec ?a ?b] =>
             destruct (Rlt_dec a b); [try (exfalso; lra)|try (exfalso; lra)]; simpl
         | |- context [Rle_dec ?a ?b] =>
             destruct (Rle_dec a b); [try (exfalso; lra)|try (exfalso; lra)]; simpl
         end.

Example torch_topk_demo :
  let lse := logsumexp demo_logits in
  @torch_topk stable_torch (log_softmax demo_logits) 5 =
    inr [(9 - lse, 5%nat); (6 - lse, 7%nat); (5 - lse, 4%nat); (4 - lse, 2%nat);
         (3 - lse, 0%nat)].
Proof.
  intros lse. unfold demo_logits, log_softmax in *. simpl. fold demo_logits. fold lse.
  unfold reference_topk, reference_sort. simpl.
  decide_comparisons. reflexivity.
Qed.

Example topk_demo :
  exists ranking,
    @topk stable_torch demo_adapter demo_logits 3 = inr ranking /\
    map TokenDict.token_id ranking = [5; 7; 4; 2; 0]%nat.
Proof.
  assert (Hlen : (Z.to_nat (clamp_top_k 3) <= List.length demo_logits)%nat)
    by (unfold clamp_top_k, TOP_K_MIN, TOP_K_MAX, demo_logits; simpl; lia).
  destruct (topk_returns stable_torch_spec demo_adapter demo_logits 3 Hlen)
    as [res [Hres [_ Heq]]].
  change (Z.to_nat (clamp_top_k 3)) with 5%nat in Hres.
  rewrite torch_topk_demo in Hres. inversion Hres; subst res.
  eexists. split; [exact Heq|]. reflexivity.
Qed.

Example choose_demo :
  exists chosen,
    @choose stable_torch demo_adapter demo_logits (py "argmax") 3 None None 0 = inr chosen /\
    TokenDict.token_id chosen = 5%nat /\
    TokenDict.logprob chosen = 9 - logsumexp demo_logits.
Proof.
  eexists. split.
  - unfold choose, demo_logits, log_softmax.
    replace (pystr_eqb (py "argmax") (py "argmax")) with true by reflexivity.
    simpl. set (lse := logsumexp _). decide_comparisons. reflexivity.
  - split; reflexivity.
Qed.

(** ** The display labels *)

Lemma digits_fuel_below (base : N) (fuel : nat) (n : N) (acc : list N) :
  (0 < base)%N ->
  Forall (fun d => (d < base)%N) acc ->
  Forall (fun d => (d < base)%N) (digits_fuel base fuel n acc).
Proof.
  intros Hb. revert n acc. induction fuel as [|fuel IH]; intros n acc Hacc; simpl.
  - exact Hacc.
  - assert (Hd : Forall (fun d => (d < base)%N) ((n mod base)%N :: acc)).
    { constructor; [|exact Hacc]. apply N.mod_lt. lia. }
    destruct (n / base =? 0)%N; [exact Hd|]. now apply IH.
Qed.

Lemma digits_below (base n : N) :
  (0 < base)%N -> Forall (fun d => (d < base)%N) (digits base n).
Proof. intros Hb. unfold digits. now apply digits_fuel_below. Qed.

Lemma digit_char_safe (d : N) : (d < 16)%N -> display_safe (digit_char d) = true.
Proof.
  intros Hd. unfold display_safe, digit_char, category_Cc.
  destruct (N.ltb_spec d 10);
    repeat match goal with
           | |- context [(?a <=? ?b)%N] => destruct (N.leb_spec a b); try lia
           | |- context [(?a =? ?b)%N] => destruct (N.eqb_spec a b); try lia
           end; reflexivity.
Qed.

Lemma format_d_safe (n : N) : forallb display_safe (format_d n) = true.
Proof.
  unfold format_d. apply forallb_forall. intros c Hc.
  apply in_map_iff in Hc. destruct Hc as [d [<- Hd]].
  pose proof (digits_below 10 n ltac:(lia)) as Hall.
  rewrite Forall_forall in Hall. apply digit_char_safe. specialize (Hall d Hd). lia.
Qed.

Lemma format_04X_safe (n : N) : forallb display_safe (format_04X n) = true.
Proof.
  unfold format_04X. rewrite forallb_app. apply andb_true_intro. split.
  - apply forallb_forall. intros c Hc. apply repeat_spec in Hc. now subst.
  - apply forallb_forall. intros c Hc.
    apply in_map_iff in Hc. destruct Hc as [d [<- Hd]].
    pose proof (digits_below 16 n ltac:(lia)) as Hall.
    rewrite Forall_forall in Hall. apply digit_char_safe. now apply Hall.
Qed.

Lemma display_char_safe (c : N) : forallb display_safe (display_char c) = true.
Proof.
  unfold display_char. destruct (category_Cc c) eqn:Hcc.
  - destruct (c =? 10)%N; [reflexivity|]. destruct (c =? 9)%N; [reflexivity|].
    destruct (c =? 13)%N; [reflexivity|].
    rewrite !forallb_app, format_04X_safe. reflexivity.
  - destruct (c =? 32)%N eqn:Hsp; [reflexivity|].
    simpl. unfold display_safe. now rewrite Hcc, Hsp.
Qed.

Lemma forallb_concat {A : Type} (f : A -> bool) (ls : list (list A)) :
  forallb f (List.concat ls) = forallb (forallb f) ls.
Proof.
  induction ls as [|l ls IH]; simpl; [reflexivity|]. now rewrite forallb_app, IH.
Qed.

Lemma display_label_safe (raw_text : pystr) :
  forallb display_safe (make_token_display raw_text) = true.
Proof.
  unfold make_token_display. destruct raw_text as [|c s]; [reflexivity|].
  destruct (isspace (c :: s)).
  - cbv zeta. destruct (Nat.eqb _ _).
    + destruct (Nat.eqb _ 1); [reflexivity|].
      rewrite forallb_app, format_d_safe. reflexivity.
    + rewrite forallb_app, format_d_safe. reflexivity.
  - rewrite forallb_concat. apply forallb_forall. intros l Hl.
    apply in_map_iff in Hl. destruct Hl as [x [<- _]]. apply display_char_safe.
Qed.

Lemma display_char_literal (c : N) : display_safe c = true -> display_char c = [c].
Proof.
  unfold display_safe, display_char. intros H.
  apply andb_prop in H. destruct H as [Hcc Hsp].
  apply negb_true_iff in Hcc, Hsp. now rewrite Hcc, Hsp.
Qed.

Lemma concat_display_literal (s : pystr) :
  forallb display_safe s = true -> List.concat (map display_char s) = s.
Proof.
  induction s as [|c s IH]; simpl; [reflexivity|]. intros H.
  apply andb_prop in H. destruct H as [Hc Hs].
  now rewrite (display_char_literal c Hc), IH.
Qed.

(** A token that is not all whitespace and has no control character and no
    space is its own label. *)
Lemma make_token_display_literal (s : pystr) :
  isspace s = false -> forallb display_safe s = true -> make_token_display s = s.
Proof.
  intros Hws Hsafe. unfold make_token_display. destruct s as [|c s]; [reflexivity|].
  rewrite Hws. now apply concat_display_literal.
Qed.

Lemma display_char_not_space (c : N) :
  char_isspace c = false -> forallb char_isspace (display_char c) = false.
Proof.
  intros Hc. unfold display_char. destruct (category_Cc c).
  - destruct (c =? 10)%N; [reflexivity|]. destruct (c =? 9)%N; [reflexivity|].
    destruct (c =? 13)%N; reflexivity.
  - destruct (c =? 32)%N; [reflexivity|]. simpl. now rewrite Hc.
Qed.

Lemma concat_display_not_space (s : pystr) :
  forallb char_isspace s = false ->
  forallb char_isspace (List.concat (map display_char s)) = false.
Proof.
  induction s as [|c s IH]; simpl; [discriminate|]. intros H.
  rewrite forallb_app. apply andb_false_iff in H. destruct H as [Hc|Hs].
  - now rewrite (display_char_not_space c Hc).
  - rewrite (IH Hs). apply andb_false_r.
Qed.

Lemma make_token_display_not_space (s : pystr) : isspace (make_token_display s) = false.
Proof.
  unfold make_token_display. destruct s as [|c s]; [reflexivity|].
  destruct (isspace (c :: s)) eqn:Hws.
  - cbv zeta. destruct (Nat.eqb _ _); [destruct (Nat.eqb _ 1)|]; reflexivity.
  - unfold isspace in *.
    destruct (List.concat (map display_char (c :: s))) eqn:Hout; [reflexivity|].
    rewrite <- Hout. now apply concat_display_not_space.
Qed.

(** X1. The label never holds a control character or an ASCII space, whatever
    the token is; formatting a label again changes nothing; and a token with
    no control character and no space that is not all whitespace is its own
    label. *)
Theorem make_token_display_safe_idempotent (raw_text : pystr) :
  forallb display_safe (make_token_display raw_text) = true /\
  make_token_display (make_token_display raw_text) = make_token_display raw_text /\
  (isspace raw_text = false -> forallb display_safe raw_text = true ->
   make_token_display raw_text = raw_text).
Proof.
  split; [apply display_label_safe|]. split.
  - apply make_token_display_literal.
    + apply make_token_display_not_space.
    + apply display_label_safe.
  - apply make_token_display_literal.
Qed.

(** ** The count in the label of a whitespace token *)

Lemma fold_digits_app (base : N) (ds : list N) (a : N) :
  fold_left (fun acc d => (acc * base + d)%N) ds a
  = (a * base ^ N.of_nat (List.length ds) + digits_value base ds)%N.
Proof.
  unfold digits_value. revert a. induction ds as [|d ds IH]; intros a.
  - simpl. lia.
  - cbn [fold_left List.length]. rewrite IH, (IH (0 * base + d)%N).
    rewrite Nat2N.inj_succ, N.pow_succ_r'. lia.
Qed.

Lemma digits_fuel_value (base : N) (fuel : nat) (n : N) (acc : list N) :
  (2 <= base)%N -> (n < 2 ^ N.of_nat fuel)%N ->
  digits_value base (digits_fuel base fuel n acc)
  = (n * base ^ N.of_nat (List.length acc) + digits_value base acc)%N.
Proof.
  intros Hb. revert n acc. induction fuel as [|fuel IH]; intros n acc Hn.
  - simpl in *. assert (n = 0%N) by lia. subst. lia.
  - cbn [digits_fuel]. cbv zeta.
    assert (Hcons : digits_value base ((n mod base)%N :: acc)
                    = ((n mod base) * base ^ N.of_nat (List.length acc)
                       + digits_value base acc)%N).
    { unfold digits_value at 1. cbn [fold_left]. rewrite fold_digits_app. lia. }
    pose proof (N.div_mod n base ltac:(lia)) as Hdm.
    destruct (N.eqb_spec (n / base) 0) as [Hz|Hnz].
    + rewrite Hcons. rewrite Hz in Hdm. replace (n mod base)%N with n by lia. reflexivity.
    + rewrite IH.
      * cbn [List.length]. rewrite Hcons, Nat2N.inj_succ, N.pow_succ_r'. nia.
      * rewrite Nat2N.inj_succ, N.pow_succ_r' in Hn.
        apply N.Div0.div_lt_upper_bound.
        assert (2 * 2 ^ N.of_nat fuel <= base * 2 ^ N.of_nat fuel)%N by nia. lia.
Qed.

Lemma pos_size_nat_gt (p : positive) : (N.pos p < 2 ^ N.of_nat (Pos.size_nat p))%N.
Proof.
  induction p as [p IH|p IH|]; cbn [Pos.size_nat].
  - rewrite Nat2N.inj_succ, N.pow_succ_r'.
    set (x := (2 ^ N.of_nat (Pos.size_nat p))%N) in *. lia.
  - rewrite Nat2N.inj_succ, N.pow_succ_r'.
    set (x := (2 ^ N.of_nat (Pos.size_nat p))%N) in *. lia.
  - reflexivity.
Qed.

Lemma digits_correct (base n : N) : (2 <= base)%N -> digits_value base (digits base n) = n.
Proof.
  intros Hb. unfold digits. rewrite digits_fuel_value.
  - unfold digits_value. cbn [List.length fold_left N.of_nat]. rewrite N.pow_0_r. lia.
  - exact Hb.
  - rewrite Nat2N.inj_succ, N.pow_succ_r'. destruct n as [|p].
    + cbn [N.size_nat N.of_nat]. rewrite N.pow_0_r. lia.
    + pose proof (pos_size_nat_gt p) as Hp. cbn [N.size_nat].
      set (x := (2 ^ N.of_nat (Pos.size_nat p))%N) in *. lia.
Qed.

Lemma parse_decimal_digits (ds : list N) (a : N) :
  Forall (fun d => (d < 10)%N) ds ->
  fold_left (fun acc c => (10 * acc + (c - 48))%N) (map digit_char ds) a
  = fold_left (fun acc d => (acc * 10 + d)%N) ds a.
Proof.
  intros H. revert a. induction H as [|d ds Hd Hds IH]; intros a;
    cbn [map fold_left]; [reflexivity|].
  rewrite IH. f_equal. unfold digit_char. destruct (N.ltb_spec d 10); lia.
Qed.

Lemma parse_format_d (n : N) : parse_decimal (format_d n) = n.
Proof.
  unfold parse_decimal, format_d. rewrite parse_decimal_digits.
  - apply (digits_correct 10 n). lia.
  - apply digits_below. lia.
Qed.

Lemma count_all_one (s : pystr) :
  count 32%N s = List.length s -> List.length s = 1%nat -> s = [32%N].
Proof.
  destruct s as [|c [|c' s]]; cbn [List.length]; try discriminate. intros H _.
  unfold count in H. cbn [filter] in H.
  destruct (N.eqb_spec 32 c) as [Heq|Hne]; [now rewrite <- Heq|discriminate].
Qed.

Lemma make_token_display_whitespace (s : pystr) :
  isspace s = true -> s <> [32%N] ->
  make_token_display s
  = [SYM_SPACE; SYM_TIMES] ++ format_d (N.of_nat (List.length s)).
Proof.
  intros Hws Hone.
  unfold make_token_display. destruct s as [|c s]; [discriminate|].
  rewrite Hws. cbv zeta.
  destruct (Nat.eqb_spec (count 32%N (c :: s)) (List.length (c :: s))) as [Hall|Hmix];
    [|reflexivity].
  destruct (Nat.eqb_spec (count 32%N (c :: s)) 1) as [H1|Hn1].
  - exfalso. apply Hone. apply count_all_one; congruence.
  - now rewrite Hall.
Qed.

(** X2. An all-whitespace token other than the single space is labelled with
    the space symbol, the multiplication sign and the decimal number of its
    characters, spaces or not: the label tells how long the token is and
    nothing else, so that two such tokens of the same length, a newline and
    a tab for one, have the same label. *)
Theorem make_token_display_whitespace_count (s : pystr) :
  isspace s = true -> s <> [32%N] ->
  (exists number,
     make_token_display s = [SYM_SPACE; SYM_TIMES] ++ number /\
     parse_decimal number = N.of_nat (List.length s)) /\
  (forall s', isspace s' = true -> s' <> [32%N] ->
     List.length s' = List.length s ->
     make_token_display s' = make_token_display s).
Proof.
  intros Hws Hone. split.
  - exists (format_d (N.of_nat (List.length s))).
    split; [now apply make_token_display_whitespace|apply parse_format_d].
  - intros s' Hws' Hone' Hlen.
    rewrite (make_token_display_whitespace s Hws Hone),
      (make_token_display_whitespace s' Hws' Hone'), Hlen. reflexivity.
Qed.

Lemma make_token_display_whitespace_count_witness :
  isspace [10%N] = true /\ [10%N] <> [32%N] /\
  make_token_display [9%N] = make_token_display [10%N] /\
  exists number,
    make_token_display [10%N] = [SYM_SPACE; SYM_TIMES] ++ number /\
    parse_decimal number = 1%N.
Proof.
  assert (Hws : isspace [10%N] = true) by reflexivity.
  assert (Hne : [10%N] <> [32%N]) by discriminate.
  split; [exact Hws|]. split; [exact Hne|].
  destruct (make_token_display_whitespace_count [10%N] Hws Hne) as [Hcount Hsame].
  split; [|exact Hcount].
  apply Hsame; [reflexivity|discriminate|reflexivity].
Defined.

(** ** What the soft bias does to the distribution *)









(** ** The entries of the ranking *)

Lemma topk_inv (T : Torch) (torch_ok : TorchSpec T) (self : HuggingFaceAdapter.t)
    (logits : list R) (k : Z) (ranking : list TokenDict.t) :
  topk self logits k = inr ranking ->
  exists res,
    topk_post (log_softmax logits) (Z.to_nat (clamp_top_k k)) res /\
    ranking = map (ranked_entry self) res /\
    (Z.to_nat (clamp_top_k k) <= List.length logits)%nat.
Proof.
  intros Ht.
  destruct (Nat.le_gt_cases (Z.to_nat (clamp_top_k k)) (List.length logits)) as [Hle|Hgt].
  - destruct (topk_returns torch_ok self logits k Hle) as [res [_ [Hpost Heq]]].
    exists res. split; [exact Hpost|]. split; [congruence|exact Hle].
  - destruct (topk_raises torch_ok self logits k Hgt) as [e He]. congruence.
Qed.

Lemma Rsum_ge_member (xs : list R) (i : nat) (x : R) :
  Forall (fun p => 0 <= p) xs -> nth_error xs i = Some x -> x <= Rsum xs.
Proof.
  intros Hpos. revert i. induction Hpos as [|y ys Hy Hys IH]; intros [|i] H;
    simpl in *; try discriminate.
  - inversion H; subst.
    assert (0 <= Rsum ys) by (clear IH; induction Hys; simpl; lra). lra.
  - specialize (IH i H). lra.
Qed.

Lemma log_softmax_nonpos (logits : list R) (i : nat) (lp : R) :
  nth_error (log_softmax logits) i = Some lp -> lp <= 0.
Proof.
  intros H.
  assert (Hne : logits <> []).
  { intros ->. destruct i; discriminate. }
  pose proof (log_softmax_normalised logits Hne) as Hsum.
  assert (Hle : exp lp <= Rsum (map exp (log_softmax logits))).
  { apply (Rsum_ge_member _ i).
    - apply Forall_forall. intros p Hp. apply in_map_iff in Hp.
      destruct Hp as [y [<- _]]. left. apply exp_pos.
    - now rewrite nth_error_map, H. }
  rewrite Hsum in Hle. destruct (Rle_dec lp 0) as [Hok|Hbad]; [exact Hok|].
  exfalso. assert (exp 0 < exp lp) by (apply exp_increasing; lra).
  rewrite exp_0 in *. lra.
Qed.



(** ** Empty logits and the defaults of the sampling parameters *)

(** X5. On an empty logit vector [topk] and [choose] raise, in every mode. *)
Theorem empty_logits_raise (T : Torch) (torch_ok : TorchSpec T)
    (self : HuggingFaceAdapter.t) (mode : pystr) (k : Z)
    (temperature top_p : option R) (g : Generator) :
  (exists e, topk self [] k = inl e) /\
  (exists e, choose self [] mode k temperature top_p g = inl e).
Proof.
  split.
  - apply (topk_raises torch_ok). pose proof (clamp_top_k_bounds k). simpl. lia.
  - unfold choose. destruct (pystr_eqb mode (py "argmax")); [eexists; reflexivity|].
    destruct (pystr_eqb mode (py "stochastic")); [|eexists; reflexivity].
    assert (Hsort : torch_sort_descending [] = []).
    { apply Permutation_nil. symmetry. apply (sort_permutation _ torch_ok []). }
    assert (Hnucleus : forall p, exists e, nucleus_filter [] p = inl e).
    { intros p. unfold nucleus_filter. rewrite Hsort. eexists. reflexivity. }
    assert (Hdraw : exists e,
               (chosen_idx <- torch_multinomial g [] ;;
                chosen_prob <- index [] chosen_idx ;;
                ret (TokenDict.make chosen_idx (HuggingFaceAdapter.decode self chosen_idx)
                       (HuggingFaceAdapter.decode self chosen_idx)
                       (make_token_display (HuggingFaceAdapter.decode self chosen_idx))
                       chosen_prob (ln (chosen_prob + 1e-10))
                       (Some (- ln (chosen_prob + 1e-12)))))%result = inl e).
    { destruct (torch_multinomial g []) as [e|idx]; simpl; [now exists e|].
      unfold index. destruct idx; simpl; eexists; reflexivity. }
    cbn [map softmax]. unfold softmax. cbn [map].
    destruct top_p as [p|]; [|exact Hdraw].
    destruct (Rlt_dec p 1.0); [|exact Hdraw].
    destruct (Hnucleus p) as [e He]. rewrite He. now exists e.
Qed.

Lemma empty_logits_raise_witness :
  (exists e, @topk stable_torch demo_adapter [] 10 = inl e) /\
  (exists e, @choose stable_torch demo_adapter [] (py "stochastic") 10
               (Some 0.8) (Some 0.95) 0 = inl e).
Proof.
  exact (empty_logits_raise stable_torch stable_torch_spec demo_adapter
           (py "stochastic") 10 (Some 0.8) (Some 0.95) 0).
Defined.

(** X6. A temperature that is missing or not positive counts as 1.0, and a
    threshold that is missing or at least 1.0 switches the nucleus filter
    off: the call is the same as with the default. *)
Theorem choose_sampling_defaults (T : Torch) (self : HuggingFaceAdapter.t)
    (logits : list R) (mode : pystr) (k : Z) (g : Generator) :
  (forall t top_p, t <= 0 ->
     choose self logits mode k (Some t) top_p g
     = choose self logits mode k (Some 1.0) top_p g) /\
  (forall top_p,
     choose self logits mode k None top_p g
     = choose self logits mode k (Some 1.0) top_p g) /\
  (forall temperature p, 1.0 <= p ->
     choose self logits mode k temperature (Some p) g
     = choose self logits mode k temperature None g).
Proof.
  unfold choose. destruct (pystr_eqb mode (py "argmax")); [repeat split|].
  destruct (pystr_eqb mode (py "stochastic")); [|repeat split].
  split; [|split].
  - intros t top_p Ht. destruct (Rlt_dec 0 t); [lra|].
    destruct (Rlt_dec 0 1.0); reflexivity.
  - intros top_p. destruct (Rlt_dec 0 1.0); reflexivity.
  - intros temperature p Hp. destruct (Rlt_dec p 1.0); [lra|reflexivity].
Qed.

(** ** Sampling from the nucleus *)

Lemma softmax_length (xs : list R) : List.length (softmax xs) = List.length xs.
Proof. unfold softmax. apply length_map. Qed.

Lemma softmax_pos (xs : list R) : Forall (fun p => 0 < p) (softmax xs).
Proof.
  destruct xs as [|x xs]; [constructor|].
  pose proof (Rsum_exp_pos (x :: xs)) as Hz.
  unfold softmax. apply Forall_forall. intros p Hp.
  apply in_map_iff in Hp. destruct Hp as [y [<- _]].
  apply Rdiv_lt_0_compat; [apply exp_pos|apply Hz; discriminate].
Qed.

Lemma choose_stochastic_inv (T : Torch) (self : HuggingFaceAdapter.t) (logits : list R)
    (k : Z) (temperature top_p : option R) (g : Generator) (chosen : TokenDict.t) :
  choose self logits (py "stochastic") k temperature top_p g = inr chosen ->
  exists probs,
    match top_p with
    | Some p =>
        if Rlt_dec p 1.0
        then nucleus_filter
               (softmax (map (fun x => x / effective_temperature temperature) logits)) p
        else ret (softmax (map (fun x => x / effective_temperature temperature) logits))
    | None => ret (softmax (map (fun x => x / effective_temperature temperature) logits))
    end = inr probs /\
    torch_multinomial g probs = inr (TokenDict.token_id chosen) /\
    nth_error probs (TokenDict.token_id chosen) = Some (TokenDict.prob chosen) /\
    TokenDict.logprob chosen = ln (TokenDict.prob chosen + 1e-10) /\
    TokenDict.surprisal chosen = Some (- ln (TokenDict.prob chosen + 1e-12)) /\
    TokenDict.token_text_raw chosen
      = HuggingFaceAdapter.decode self (TokenDict.token_id chosen).
Proof.
  unfold choose.
  replace (pystr_eqb (py "stochastic") (py "argmax")) with false by reflexivity.
  replace (pystr_eqb (py "stochastic") (py "stochastic")) with true by reflexivity.
  fold (effective_temperature temperature).
  set (probs0 := softmax _).
  destruct (match top_p with
            | Some p => if Rlt_dec p 1.0 then nucleus_filter probs0 p else ret probs0
            | None => ret probs0
            end) as [e|probs]; [discriminate|].
  simpl. destruct (torch_multinomial g probs) as [e|idx] eqn:Hm; [discriminate|]. simpl.
  unfold index. destruct (nth_error probs idx) as [v|] eqn:Hv; [|discriminate]. simpl.
  intros H. inversion H; subst chosen. simpl. exists probs. repeat split; try reflexivity; assumption.
Qed.

(** X7. Sampling with a threshold below 1.0. The distribution [choose]
    draws from is the one of the temperature-scaled logits cut to a prefix
    of its descending order: the prefix is the longest one whose cumulative
    probability is at most [top_p], or the first entry alone when even that
    one exceeds it; the entries after the prefix have probability zero, the
    kept ones are renormalised to sum to one, and the probability reported
    for the chosen token is its probability after the cut. *)
Theorem choose_stochastic_nucleus (T : Torch) (torch_ok : TorchSpec T)
    (self : HuggingFaceAdapter.t) (logits : list R) (k : Z)
    (temperature : option R) (p : R) (g : Generator) (chosen : TokenDict.t) :
  p < 1.0 ->
  choose self logits (py "stochastic") k temperature (Some p) g = inr chosen ->
  let probs := softmax (map (fun x => x / effective_temperature temperature) logits) in
  let sorted := torch_sort_descending probs in
  exists n filtered,
    (1 <= n <= List.length logits)%nat /\
    nucleus_filter probs p = inr filtered /\
    torch_multinomial g filtered = inr (TokenDict.token_id chosen) /\
    nth_error filtered (TokenDict.token_id chosen) = Some (TokenDict.prob chosen) /\
    (n = 1%nat \/ Rsum (map fst (firstn n sorted)) <= p) /\
    ((n < List.length logits)%nat -> p < Rsum (map fst (firstn (S n) sorted))) /\
    (forall v i, In (v, i) (skipn n sorted) -> nth_error filtered i = Some 0) /\
    Rsum filtered = 1 /\
    (0 < TokenDict.prob chosen ->
     exists v, In (v, TokenDict.token_id chosen) (firstn n sorted) /\
               TokenDict.prob chosen = v / Rsum (map fst (firstn n sorted))).
Proof.
  intros Hp Hc probs sorted.
  destruct (choose_stochastic_inv T self logits k temperature (Some p) g chosen Hc)
    as [filtered [Hf [Hdraw [Hprob _]]]].
  fold probs in Hf. destruct (Rlt_dec p 1.0) as [_|Hn]; [|lra].
  assert (Hlen : List.length probs = List.length logits)
    by (unfold probs; now rewrite softmax_length, length_map).
  assert (Hne : probs <> []).
  { intros Hnil. rewrite Hnil in Hf. unfold nucleus_filter in Hf.
    assert (Hsort : torch_sort_descending [] = []).
    { apply Permutation_nil. symmetry. apply (sort_permutation _ torch_ok []). }
    rewrite Hsort in Hf. discriminate. }
  destruct (nucleus_filter_prefix T torch_ok probs p Hne (softmax_pos _))
    as [n [filtered' [Hn [Hf' [Hflen [Hkept [Hcut [Hsum [Hmass Hnext]]]]]]]]].
  fold sorted in Hkept, Hcut, Hmass, Hnext.
  assert (filtered' = filtered) by congruence. subst filtered'.
  rewrite Hlen in Hn, Hnext.
  exists n, filtered. repeat (split; [assumption|]).
  intros Hpos.
  assert (Hid : (TokenDict.token_id chosen < List.length probs)%nat).
  { rewrite <- Hflen. apply nth_error_Some. congruence. }
  destruct (nth_error probs (TokenDict.token_id chosen)) as [v|] eqn:Hv;
    [|apply nth_error_None in Hv; lia].
  assert (Hin : In (v, TokenDict.token_id chosen) sorted).
  { apply (Permutation_in _ (Permutation_sym (sort_permutation _ torch_ok probs))).
    now apply in_enumerate. }
  rewrite <- (firstn_skipn n sorted) in Hin. apply in_app_or in Hin.
  destruct Hin as [Hin|Hin].
  - exists v. split; [exact Hin|]. apply Hkept in Hin. congruence.
  - apply Hcut in Hin. rewrite Hin in Hprob. inversion Hprob. lra.
Qed.

(** The reference sampler at the draw [u = 0]. *)
Lemma first_above_bounds (u : R) (cs : list R) (i j : nat) :
  first_above u i cs = Some j -> (i <= j < i + List.length cs)%nat.
Proof.
  revert i. induction cs as [|c cs IH]; intros i H; simpl in *; [discriminate|].
  destruct (Rlt_dec u c).
  - inversion H. lia.
  - apply IH in H. lia.
Qed.

Lemma first_above_exists (u : R) (cs : list R) (i : nat) :
  Exists (fun c => u < c) cs -> exists j, first_above u i cs = Some j.
Proof.
  intros H. revert i. induction H as [c cs Hc|c cs _ IH]; intros i; simpl.
  - destruct (Rlt_dec u c); [now exists i|contradiction].
  - destruct (Rlt_dec u c); [now exists i|apply IH].
Qed.

Lemma cumsum_from_last (acc : R) (xs : list R) :
  xs <> [] -> In (acc + Rsum xs) (cumsum_from acc xs).
Proof.
  revert acc. induction xs as [|x xs IH]; intros acc Hne; [congruence|].
  simpl. destruct xs as [|y ys].
  - left. simpl. lra.
  - right. replace (acc + (x + Rsum (y :: ys))) with (acc + x + Rsum (y :: ys)) by lra.
    apply IH. discriminate.
Qed.

Lemma inverse_cdf_zero (probs : list R) :
  0 < Rsum probs ->
  exists j, inverse_cdf 0 probs = inr j /\ (j < List.length probs)%nat.
Proof.
  intros Hpos.
  assert (Hne : probs <> []) by (intros ->; simpl in Hpos; lra).
  unfold inverse_cdf.
  destruct (first_above_exists (0 * Rsum probs) (cumsum probs) 0) as [j Hj].
  - apply Exists_exists. exists (0 + Rsum probs). split.
    + now apply cumsum_from_last.
    + lra.
  - rewrite Hj. exists j. split; [reflexivity|].
    apply first_above_bounds in Hj. unfold cumsum in Hj.
    rewrite cumsum_from_length in Hj. lia.
Qed.

Lemma softmax_normalised (xs : list R) : xs <> [] -> Rsum (softmax xs) = 1.
Proof.
  intros Hne. pose proof (Rsum_exp_pos xs Hne) as Hpos. unfold softmax.
  rewrite (map_ext _ (fun x => exp x * / Rsum (map exp xs))) by reflexivity.
  rewrite Rsum_map_scale. field. lra.
Qed.

Lemma stable_choose_stochastic_returns (self : HuggingFaceAdapter.t) (logits : list R)
    (k : Z) (temperature top_p : option R) :
  logits <> [] ->
  exists chosen,
    @choose stable_torch self logits (py "stochastic") k temperature top_p 0 = inr chosen.
Proof.
  intros Hne.
  set (probs := softmax (map (fun x => x / effective_temperature temperature) logits)).
  assert (Hpne : probs <> []).
  { intros H. apply (f_equal (@List.length R)) in H. unfold probs in H.
    rewrite softmax_length, length_map in H. destruct logits; [congruence|discriminate]. }
  assert (Hdist : exists final,
             match top_p with
             | Some p => if Rlt_dec p 1.0 then @nucleus_filter stable_torch probs p
                         else ret probs
             | None => ret probs
             end = inr final /\ Rsum final = 1).
  { assert (Hplain : Rsum probs = 1).
    { apply softmax_normalised. intros H. apply map_eq_nil in H. contradiction. }
    destruct top_p as [p|]; [|now exists probs].
    destruct (Rlt_dec p 1.0); [|now exists probs].
    destruct (nucleus_filter_prefix stable_torch stable_torch_spec probs p Hpne
                (softmax_pos _)) as [n [filtered [_ [Hf [_ [_ [_ [Hsum _]]]]]]]].
    now exists filtered. }
  destruct Hdist as [final [Hfinal Hsum]].
  destruct (inverse_cdf_zero final) as [j [Hj Hlt]]; [lra|].
  destruct (nth_error final j) as [v|] eqn:Hv; [|apply nth_error_None in Hv; lia].
  unfold choose.
  replace (pystr_eqb (py "stochastic") (py "argmax")) with false by reflexivity.
  replace (pystr_eqb (py "stochastic") (py "stochastic")) with true by reflexivity.
  fold (effective_temperature temperature). fold probs.
  rewrite Hfinal. simpl.
  change (@torch_multinomial stable_torch 0 final) with (inverse_cdf 0 final).
  rewrite Hj. simpl. unfold index. rewrite Hv. simpl. eexists. reflexivity.
Qed.

Lemma choose_stochastic_nucleus_witness :
  exists chosen filtered,
    @choose stable_torch demo_adapter demo_logits (py "stochastic") 10
      (Some 0.8) (Some 0.95) 0 = inr chosen /\
    @nucleus_filter stable_torch
      (softmax (map (fun x => x / effective_temperature (Some 0.8)) demo_logits)) 0.95
      = inr filtered /\
    nth_error filtered (TokenDict.token_id chosen) = Some (TokenDict.prob chosen) /\
    Rsum filtered = 1.
Proof.
  assert (Hne : demo_logits <> []) by discriminate.
  destruct (stable_choose_stochastic_returns demo_adapter demo_logits 10
              (Some 0.8) (Some 0.95) Hne) as [chosen Hc].
  assert (Hp : 0.95 < 1.0) by lra.
  destruct (choose_stochastic_nucleus stable_torch stable_torch_spec demo_adapter
              demo_logits 10 (Some 0.8) 0.95 0 chosen Hp Hc)
    as [n [filtered [_ [Hf [_ [Hprob [_ [_ [_ [Hsum _]]]]]]]]]].
  exists chosen, filtered. repeat split; assumption.
Defined.

(** ** What the handlers report about the context *)

Lemma last_or_none_skipn {A : Type} (n : nat) (l : list A) :
  (n < List.length l)%nat -> last_or_none (skipn n l) = last_or_none l.
Proof.
  revert n. induction l as [|x l IH]; intros n Hn; simpl in Hn; [lia|].
  destruct n as [|n]; [reflexivity|].
  simpl skipn. rewrite IH by lia.
  destruct l as [|y l]; [simpl in Hn; lia|reflexivity].
Qed.

Lemma last_or_none_map {A B : Type} (f : A -> B) (l : list A) :
  last_or_none (map f l) = option_map f (last_or_none l).
Proof.
  induction l as [|x [|y l] IH]; try reflexivity.
  exact IH.
Qed.

Lemma tokenize_report (self : HuggingFaceAdapter.t) (text : pystr) :
  let encoded := HuggingFaceAdapter.encode self text in
  List.length (TokenizeResult.ids (tokenize self text))
    = Nat.min (List.length encoded) 512 /\
  List.length (TokenizeResult.tokens (tokenize self text))
    = Nat.min (List.length encoded) 512 /\
  last_or_none (TokenizeResult.ids (tokenize self text)) = last_or_none encoded /\
  last_or_none (TokenizeResult.tokens (tokenize self text))
    = option_map (HuggingFaceAdapter.token_string self) (last_or_none encoded).
Proof.
  intros encoded. unfold tokenize. fold encoded. unfold CONTEXT_CAP_TOKENS, last_n.
  destruct (Nat.ltb_spec 512 (List.length encoded)) as [Hlong|Hshort]; simpl.
  - rewrite length_map, length_skipn, last_or_none_map, last_or_none_skipn by lia.
    repeat split; try lia; reflexivity.
  - rewrite length_map, last_or_none_map. repeat split; try lia; reflexivity.
Qed.

Lemma next_dist_success_inv (T : Torch) (self : HuggingFaceAdapter.t)
    (request : NextDistRequestModel.t) (body : NextDistResponseModel.t)
    (trace : list Call) :
  next_dist (Some self) request = (Success body, trace) ->
  let result := tokenize self (NextDistRequestModel.context_text request) in
  exists logits ranking,
    (1 <= NextDistRequestModel.top_k request)%Z /\
    (Z.of_nat (List.length (NextDistRequestModel.context_text request))
     <= MAX_PAYLOAD_SIZE)%Z /\
    forward_last self (TokenizeResult.ids result) (Some false) = inr logits /\
    topk self logits (main.clamp_top_k (NextDistRequestModel.top_k request))
      = inr ranking /\
    body = NextDistResponseModel.make CONTRACT_VERSION
             (List.length (TokenizeResult.ids result))
             (map TokenInfoModel.of_dict ranking)
             (Rsum (map TokenDict.prob ranking))
             (LastTokenModel.make (last_or_none (TokenizeResult.ids result))
                (last_or_none (TokenizeResult.tokens result)))
             (ModelInfoModel.make (py "hf-local") (HuggingFaceAdapter.model_name self)
                (HuggingFaceAdapter.vocab_size self)) /\
    trace = next_dist_calls self request.
Proof.
  unfold next_dist.
  destruct (Z.ltb_spec (NextDistRequestModel.top_k request) 1); [discriminate|].
  destruct (Z.ltb_spec MAX_PAYLOAD_SIZE
              (Z.of_nat (List.length (NextDistRequestModel.context_text request))));
    [discriminate|].
  fold (main.clamp_top_k (NextDistRequestModel.top_k request)).
  unfold call, tbind, tret, ret. cbv beta iota.
  destruct (forward_last self _ (Some false)) as [e|logits] eqn:Hf;
    [destruct e; discriminate|].
  destruct (topk self logits _) as [e|ranking] eqn:Ht; [destruct e; discriminate|].
  simpl. intros Heq. inversion Heq; subst.
  exists logits, ranking. repeat split; try assumption; reflexivity.
Qed.


(** X8. A successful response of either handler reports the context after
    the cap: [context_len_tokens] is the number of ids of the tokenization
    or 512, whichever is smaller, and [last_token] is the last id of the
    tokenization with its token string, also when ids were dropped at the
    front; an empty tokenization gives length 0 and no last token. *)
Theorem handlers_report_context (T : Torch) (self : HuggingFaceAdapter.t) :
  (forall request g body trace,
     step (Some self) request g = (Success body, trace) ->
     let encoded := HuggingFaceAdapter.encode self (StepRequestModel.context_text request) in
     StepResponseModel.context_len_tokens body = Nat.min (List.length encoded) 512 /\
     StepResponseModel.last_token body
       = LastTokenModel.make (last_or_none encoded)
           (option_map (HuggingFaceAdapter.token_string self) (last_or_none encoded)) /\
     (encoded = [] ->
      StepResponseModel.context_len_tokens body = 0%nat /\
      StepResponseModel.last_token body = LastTokenModel.make None None)) /\
  (forall request body trace,
     next_dist (Some self) request = (Success body, trace) ->
     let encoded :=
       HuggingFaceAdapter.encode self (NextDistRequestModel.context_text request) in
     NextDistResponseModel.context_len_tokens body = Nat.min (List.length encoded) 512 /\
     NextDistResponseModel.last_token body
       = LastTokenModel.make (last_or_none encoded)
           (option_map (HuggingFaceAdapter.token_string self) (last_or_none encoded)) /\
     (encoded = [] ->
      NextDistResponseModel.context_len_tokens body = 0%nat /\
      NextDistResponseModel.last_token body = LastTokenModel.make None None)).
Proof.
  split.
  - intros request g body trace Hstep encoded.
    destruct (step_success_inv self request g body trace Hstep)
      as [logits [ranking [chosen [_ [_ [_ [_ [_ [Hbody _]]]]]]]]].
    subst body. simpl. unfold step_ids, step_tokens.
    destruct (tokenize_report self (StepRequestModel.context_text request))
      as [Hlen [_ [Hid Htext]]].
    fold encoded in Hlen, Hid, Htext. rewrite Hlen, Hid, Htext.
    split; [reflexivity|]. split; [reflexivity|].
    intros ->. split; reflexivity.
  - intros request body trace Hnd encoded.
    destruct (next_dist_success_inv T self request body trace Hnd)
      as [logits [ranking [_ [_ [_ [_ [Hbody _]]]]]]].
    subst body.
    cbn [NextDistResponseModel.context_len_tokens NextDistResponseModel.last_token].
    destruct (tokenize_report self (NextDistRequestModel.context_text request))
      as [Hlen [_ [Hid Htext]]].
    fold encoded in Hlen, Hid, Htext. rewrite Hlen, Hid, Htext.
    split; [reflexivity|]. split; [reflexivity|].
    intros ->. split; reflexivity.
Qed.

Lemma handlers_report_context_witness :
  exists body trace,
    @step stable_torch (Some demo_adapter)
      (StepRequestModel.make (repeat 97%N 600) 5 (py "argmax") None None None) 0
    = (Success body, trace) /\
    StepResponseModel.context_len_tokens body = 512%nat /\
    StepResponseModel.last_token body = LastTokenModel.make (Some 1%nat) (Some [1%N]).
Proof.
  destruct (demo_step_succeeds (repeat 97%N 600) 5 None) as [body [trace Hstep]];
    [lia|rewrite repeat_length; unfold MAX_PAYLOAD_SIZE; lia|reflexivity|].
  exists body, trace. split; [exact Hstep|].
  destruct (proj1 (handlers_report_context stable_torch demo_adapter) _ 0 body trace Hstep)
    as [Hlen [Hlast _]].
  split.
  - rewrite Hlen. apply Nat2Z.inj. vm_compute. reflexivity.
  - rewrite Hlast. vm_compute. reflexivity.
Defined.

(** ** The order of the calls *)

(** X9. Whatever a handler answers, the calls it has made on the adapter
    are an initial part of the sequence tokenize, forward_last, topk (and
    choose for [/step]), with the arguments of the successful run: no call
    is made twice or out of order, and the Scorer runs at most once and only
    after the tokenizer. *)
Theorem handlers_call_in_order (T : Torch) (self : HuggingFaceAdapter.t) :
  (forall request g,
     exists rest, step_calls self request = snd (step (Some self) request g) ++ rest) /\
  (forall request,
     exists rest, next_dist_calls self request = snd (next_dist (Some self) request) ++ rest).
Proof.
  split.
  - intros request g. unfold step.
    destruct (StepRequestModel.top_k request <? 1)%Z; [eexists; reflexivity|].
    destruct (MAX_PAYLOAD_SIZE <? _)%Z; [eexists; reflexivity|].
    fold (main.clamp_top_k (StepRequestModel.top_k request)).
    unfold call, tbind, tret, ret. cbv beta iota.
    fold (step_ids self request).
    destruct (forward_last self (step_ids self request) _) as [e|logits];
      [destruct e; eexists; reflexivity|].
    destruct (topk self logits _) as [e|ranking]; [destruct e; eexists; reflexivity|].
    destruct (choose self logits _ _ _ _ g) as [e|chosen];
      [destruct e; exists []; reflexivity|].
    exists []. reflexivity.
  - intros request. unfold next_dist.
    destruct (NextDistRequestModel.top_k request <? 1)%Z; [eexists; reflexivity|].
    destruct (MAX_PAYLOAD_SIZE <? _)%Z; [eexists; reflexivity|].
    fold (main.clamp_top_k (NextDistRequestModel.top_k request)).
    unfold call, tbind, tret, ret. cbv beta iota.
    destruct (forward_last self _ (Some false)) as [e|logits];
      [destruct e; eexists; reflexivity|].
    destruct (topk self logits _) as [e|ranking]; [destruct e; exists []; reflexivity|].
    exists []. reflexivity.
Qed.

(** ** Requests that passed the field validation *)

Lemma index_no_value_error {A : Type} (xs : list A) (i : nat) : no_value_error (index xs i).
Proof. unfold index. intros msg. destruct (nth_error xs i); discriminate. Qed.

Lemma assign_no_value_error {A : Type} (xs : list A) (i : nat) (v : A) :
  no_value_error (assign xs i v).
Proof. unfold assign. intros msg. destruct (nth_error xs i); discriminate. Qed.

Lemma bind_no_value_error {A B : Type} (m : Result A) (f : A -> Result B) :
  no_value_error m -> (forall a, no_value_error (f a)) -> no_value_error (bind m f).
Proof.
  intros Hm Hf msg. destruct m as [e|a]; simpl.
  - intros H. inversion H; subst. now apply (Hm msg).
  - apply Hf.
Qed.

Lemma ret_no_value_error {A : Type} (a : A) : no_value_error (ret a).
Proof. intros msg. discriminate. Qed.

Lemma forward_last_no_value_error (self : HuggingFaceAdapter.t) (ids : list nat)
    (soften : option bool) :
  no_value_error (forward_last self ids soften).
Proof.
  unfold forward_last. destruct (truthy soften); [|apply ret_no_value_error].
  assert (Hsub : forall l i, no_value_error (subtract_at l i 2.0)).
  { intros l i. apply bind_no_value_error; [apply index_no_value_error|].
    intros a. apply assign_no_value_error. }
  apply bind_no_value_error.
  - destruct (hd_error _); [apply Hsub|apply ret_no_value_error].
  - intros l. apply bind_no_value_error; [|intros; apply ret_no_value_error].
    destruct (HuggingFaceAdapter.eos_token_id self); [apply Hsub|apply ret_no_value_error].
Qed.

Lemma for_range_no_value_error {A : Type} (body : nat -> Result A) (range : list nat) :
  (forall i, no_value_error (body i)) -> no_value_error (for_range body range).
Proof.
  intros Hbody. induction range as [|i range IH]; simpl; [apply ret_no_value_error|].
  apply bind_no_value_error; [apply Hbody|]. intros x.
  apply bind_no_value_error; [exact IH|]. intros; apply ret_no_value_error.
Qed.

Lemma topk_no_value_error (T : Torch) (self : HuggingFaceAdapter.t) (logits : list R)
    (k : Z) :
  (forall xs n, no_value_error (torch_topk xs n)) ->
  no_value_error (topk self logits k).
Proof.
  intros Htorch. unfold topk. apply bind_no_value_error; [apply Htorch|]. intros top.
  apply bind_no_value_error; [|intros; apply ret_no_value_error].
  apply for_range_no_value_error. intros i.
  apply bind_no_value_error; [apply index_no_value_error|intros; apply ret_no_value_error].
Qed.

Lemma scatter_no_value_error (kept : list (nat * R)) (init : Result (list R)) :
  no_value_error init ->
  no_value_error
    (fold_left (fun acc iv => (acc <- acc ;; assign acc (fst iv) (snd iv))%result)
       kept init).
Proof.
  revert init. induction kept as [|iv kept IH]; intros init Hinit; simpl; [exact Hinit|].
  apply IH. apply bind_no_value_error; [exact Hinit|].
  intros acc. apply assign_no_value_error.
Qed.

Lemma nucleus_filter_no_value_error (T : Torch) (probs : list R) (top_p : R) :
  no_value_error (nucleus_filter probs top_p).
Proof.
  unfold nucleus_filter. apply bind_no_value_error.
  - destruct (negb _); [apply assign_no_value_error|apply ret_no_value_error].
  - intros mask. apply bind_no_value_error; [|intros; apply ret_no_value_error].
    apply scatter_no_value_error, ret_no_value_error.
Qed.

Lemma choose_no_value_error (T : Torch) (self : HuggingFaceAdapter.t) (logits : list R)
    (mode : pystr) (k : Z) (temperature top_p : option R) (g : Generator) :
  (forall g probs, no_value_error (torch_multinomial g probs)) ->
  mode = py "argmax" \/ mode = py "stochastic" ->
  no_value_error (choose self logits mode k temperature top_p g).
Proof.
  intros Htorch [->| ->]; unfold choose.
  - replace (pystr_eqb (py "argmax") (py "argmax")) with true by reflexivity.
    apply bind_no_value_error.
    + unfold argmax. destruct (log_softmax logits); intros msg; discriminate.
    + intros idx. apply bind_no_value_error; [apply index_no_value_error|].
      intros; apply ret_no_value_error.
  - replace (pystr_eqb (py "stochastic") (py "argmax")) with false by reflexivity.
    replace (pystr_eqb (py "stochastic") (py "stochastic")) with true by reflexivity.
    apply bind_no_value_error.
    + destruct top_p as [p|]; [|apply ret_no_value_error].
      destruct (Rlt_dec p 1.0); [apply nucleus_filter_no_value_error|apply ret_no_value_error].
    + intros probs. apply bind_no_value_error; [apply Htorch|]. intros idx.
      apply bind_no_value_error; [apply index_no_value_error|].
      intros; apply ret_no_value_error.
Qed.

(** X10. The checks of the handler are behind those of the request model.
    For a request that meets the field constraints of [StepRequestModel],
    and [torch] operations that do not raise [ValueError], [/step] never
    answers with status 400: a response that is not a success has status 500
    and was produced after the tokenizer and the Scorer had run. *)
Theorem validated_step_never_400 (T : Torch)
    (topk_error : forall xs n, no_value_error (torch_topk xs n))
    (multinomial_error : forall g probs, no_value_error (torch_multinomial g probs))
    (self : HuggingFaceAdapter.t) (request : StepRequestModel.t) (g : Generator)
    (status : Z) (message hint : pystr) (trace : list Call) :
  step_request_valid request ->
  step (Some self) request g = (JSONResponse status message hint, trace) ->
  status = 500%Z /\
  hint = py "Internal server error occurred" /\
  exists rest,
    trace = Call_tokenize (StepRequestModel.context_text request)
            :: Call_forward_last (step_ids self request)
                 (StepRequestModel.soften_newline_eot request)
            :: rest.
Proof.
  intros [Hlen [Hk [Hmode _]]]. unfold step.
  destruct (Z.ltb_spec (StepRequestModel.top_k request) 1); [lia|].
  destruct (Z.ltb_spec MAX_PAYLOAD_SIZE
              (Z.of_nat (List.length (StepRequestModel.context_text request)))); [lia|].
  fold (main.clamp_top_k (StepRequestModel.top_k request)).
  unfold call, tbind, tret, ret. cbv beta iota.
  fold (step_ids self request) (step_temperature request) (step_top_p request).
  pose proof (forward_last_no_value_error self (step_ids self request)
                (StepRequestModel.soften_newline_eot request)) as Hf.
  destruct (forward_last self (step_ids self request) _) as [e|logits].
  { destruct e as [msg|msg|msg]; [now destruct (Hf msg)| |];
      simpl; intros Hr; inversion Hr; subst; repeat split; eexists; reflexivity. }
  pose proof (topk_no_value_error T self logits
                (main.clamp_top_k (StepRequestModel.top_k request)) topk_error) as Ht.
  destruct (topk self logits _) as [e|ranking].
  { destruct e as [msg|msg|msg]; [now destruct (Ht msg)| |];
      simpl; intros Hr; inversion Hr; subst; repeat split; eexists; reflexivity. }
  pose proof (choose_no_value_error T self logits (StepRequestModel.mode request)
                (main.clamp_top_k (StepRequestModel.top_k request))
                (step_temperature request) (step_top_p request) g
                multinomial_error Hmode) as Hc.
  destruct (choose self logits _ _ _ _ g) as [e|chosen].
  { destruct e as [msg|msg|msg]; [now destruct (Hc msg)| |];
      simpl; intros Hr; inversion Hr; subst; repeat split; eexists; reflexivity. }
  simpl. discriminate.
Qed.

Lemma reference_torch_no_value_error (order : list (R * nat) -> list (R * nat)) :
  (forall xs n, no_value_error (@torch_topk (torch_with order) xs n)) /\
  (forall g probs, no_value_error (@torch_multinomial (torch_with order) g probs)).
Proof.
  split.
  - intros xs n msg. simpl. unfold reference_topk.
    destruct (n <=? List.length xs)%nat; discriminate.
  - intros g probs msg. simpl. unfold inverse_cdf.
    destruct (first_above _ _ _); discriminate.
Qed.

Lemma validated_step_never_400_witness :
  let short_adapter :=
    HuggingFaceAdapter.make (py "short") (fun _ => []) (fun id => [N.of_nat id])
      (fun id => [N.of_nat id]) None 3 (fun _ => [1; 0; -1]) in
  let request :=
    StepRequestModel.make (py "ab") 3 (py "argmax") (Some 0.8) (Some 0.95) None in
  step_request_valid request /\
  exists status message hint trace,
    @step stable_torch (Some short_adapter) request 0
      = (JSONResponse status message hint, trace) /\
    status = 500%Z.
Proof.
  intros short_adapter request.
  assert (Hvalid : step_request_valid request).
  { unfold step_request_valid, request, MAX_PAYLOAD_SIZE. simpl.
    split; [lia|]. split; [lia|]. split; [now left|].
    split; intros x Hx; inversion Hx; lra. }
  split; [exact Hvalid|].
  destruct (@step stable_torch (Some short_adapter) request 0)
    as [[body|status message hint] trace] eqn:Hstep.
  - exfalso.
    destruct (@step_success_inv stable_torch short_adapter request 0 body trace Hstep)
      as [logits [ranking [chosen [_ [_ [Hf [Ht _]]]]]]].
    unfold forward_last in Hf. simpl in Hf. inversion Hf; subst logits.
    destruct (topk_raises stable_torch_spec short_adapter [1; 0; -1]
                (main.clamp_top_k 3)) as [e He].
    + unfold clamp_top_k, main.clamp_top_k, TOP_K_MIN, TOP_K_MAX, main.TOP_K_MIN,
        main.TOP_K_MAX. simpl. lia.
    + simpl in Ht. congruence.
  - exists status, message, hint, trace. split; [reflexivity|].
    exact (proj1 (validated_step_never_400 stable_torch
                    (proj1 (reference_torch_no_value_error (fun l => l)))
                    (proj2 (reference_torch_no_value_error (fun l => l)))
                    short_adapter request 0 status message hint trace Hvalid Hstep)).
Defined.

(** ** The response of a greedy step *)



Lemma In_removelast {A : Type} (x : A) (l : list A) : In x (removelast l) -> In x l.
Proof.
  induction l as [|y [|z l] IH]; simpl in *; tauto.
Qed.

Lemma NoDup_map_removelast {A B : Type} (f : A -> B) (l : list A) :
  NoDup (map f l) -> NoDup (map f (removelast l)).
Proof.
  induction l as [|y [|z l] IH]; intros H; [constructor|constructor|].
  inversion H as [|? ? Hnotin Hnd]; subst.
  change (removelast (y :: z :: l)) with (y :: removelast (z :: l)).
  rewrite map_cons. constructor.
  - intros Hin. apply Hnotin. apply in_map_iff in Hin. destruct Hin as [t [Ht Hin]].
    apply In_removelast in Hin. rewrite <- Ht.
    change (f z :: map f l) with (map f (z :: l)). now apply in_map.
  - now apply IH.
Qed.


(** The ids of the merged ranking are distinct when those of the ranking
    are. *)
Lemma merge_chosen_NoDup (chosen : TokenDict.t) (ranking : list TokenDict.t) :
  NoDup (map TokenDict.token_id ranking) ->
  NoDup (map TokenDict.token_id (merge_chosen chosen ranking)).
Proof.
  intros Hnd. rewrite merge_chosen_cases.
  destruct (has_id (TokenDict.token_id chosen) ranking) eqn:E; [exact Hnd|].
  simpl. constructor.
  - intros Hin. apply in_map_iff in Hin. destruct Hin as [t [Ht Hin]].
    apply In_removelast in Hin.
    assert (has_id (TokenDict.token_id chosen) ranking = true); [|congruence].
    apply has_id_In. rewrite <- Ht. now apply in_map.
  - now apply NoDup_map_removelast.
Qed.


Lemma topk_ids_distinct (T : Torch) (torch_ok : TorchSpec T) (self : HuggingFaceAdapter.t)
    (logits : list R) (k : Z) (ranking : list TokenDict.t) :
  topk self logits k = inr ranking -> NoDup (map TokenDict.token_id ranking).
Proof.
  intros Ht. destruct (topk_inv T torch_ok self logits k ranking Ht)
    as [res [Hpost [-> _]]].
  rewrite ranked_entry_ids. apply (topk_distinct _ _ _ Hpost).
Qed.

(** What greedy selection returns, in full. *)
Lemma choose_argmax_entry (T : Torch) (self : HuggingFaceAdapter.t) (logits : list R)
    (k : Z) (temperature top_p : option R) (g : Generator) (chosen : TokenDict.t) :
  choose self logits (py "argmax") k temperature top_p g = inr chosen ->
  nth_error (log_softmax logits) (TokenDict.token_id chosen)
    = Some (TokenDict.logprob chosen) /\
  chosen = TokenDict.make (TokenDict.token_id chosen)
             (HuggingFaceAdapter.decode self (TokenDict.token_id chosen))
             (HuggingFaceAdapter.decode self (TokenDict.token_id chosen))
             (make_token_display (HuggingFaceAdapter.decode self (TokenDict.token_id chosen)))
             (exp (TokenDict.logprob chosen)) (TokenDict.logprob chosen)
             (Some (- ln (exp (TokenDict.logprob chosen) + 1e-12))) /\
  (forall j lp, nth_error (log_softmax logits) j = Some lp -> lp <= TokenDict.logprob chosen).
Proof.
  intros Hc. destruct logits as [|x logits].
  - unfold choose in Hc.
    replace (pystr_eqb (py "argmax") (py "argmax")) with true in Hc by reflexivity.
    simpl in Hc. discriminate.
  - destruct (argmax_spec (log_softmax (x :: logits))) as [idx [lp [Ha [Hn [Hmax _]]]]].
    + rewrite log_softmax_nil_iff. discriminate.
    + rewrite (choose_argmax_eq self (x :: logits) k temperature top_p g idx lp Ha Hn) in Hc.
      inversion Hc; subst chosen. simpl. split; [exact Hn|]. split; [reflexivity|exact Hmax].
Qed.



(** ** When a greedy step succeeds *)

(** X12. With the adapter loaded, a greedy step succeeds exactly when the
    request passes the two checks of the handler, [forward_last] returns,
    and the logits have at least [used_top_k] entries: nothing else can
    fail. *)
Theorem step_greedy_succeeds_iff (T : Torch) (torch_ok : TorchSpec T)
    (self : HuggingFaceAdapter.t) (request : StepRequestModel.t) (g : Generator) :
  StepRequestModel.mode request = py "argmax" ->
  (exists body trace, step (Some self) request g = (Success body, trace)) <->
  (1 <= StepRequestModel.top_k request)%Z /\
  (Z.of_nat (List.length (StepRequestModel.context_text request)) <= MAX_PAYLOAD_SIZE)%Z /\
  exists logits,
    forward_last self (step_ids self request) (StepRequestModel.soften_newline_eot request)
      = inr logits /\
    (Z.to_nat (main.clamp_top_k (StepRequestModel.top_k request))
     <= List.length logits)%nat.
Proof.
  intros Hmode. split.
  - intros [body [trace Hstep]].
    destruct (step_success_inv self request g body trace Hstep)
      as [logits [ranking [chosen [Hk [Hlen [Hf [Ht _]]]]]]].
    split; [exact Hk|]. split; [exact Hlen|]. exists logits. split; [exact Hf|].
    destruct (topk_inv T torch_ok self logits _ ranking Ht) as [_ [_ [_ Hle]]].
    now rewrite clamp_top_k_idempotent in Hle.
  - intros [Hk [Hlen [logits [Hf Hle]]]].
    rewrite <- clamp_top_k_idempotent in Hle.
    destruct (topk_returns torch_ok self logits _ Hle) as [res [_ [_ Ht]]].
    assert (Hne : logits <> []).
    { intros ->. simpl in Hle.
      pose proof (clamp_top_k_bounds (main.clamp_top_k (StepRequestModel.top_k request))).
      lia. }
    destruct (choose_argmax_returns T self logits
                (main.clamp_top_k (StepRequestModel.top_k request))
                (step_temperature request) (step_top_p request) g Hne) as [chosen Hc].
    rewrite <- Hmode in Hc.
    do 2 eexists. apply (step_success self request g logits _ chosen Hk Hlen Hf Ht Hc).
Qed.

Lemma step_greedy_succeeds_iff_witness :
  exists body trace,
    @step stable_torch (Some demo_adapter)
      (StepRequestModel.make (py "ab") 7 (py "argmax") None None None) 0
    = (Success body, trace).
Proof.
  apply (proj2 (step_greedy_succeeds_iff stable_torch stable_torch_spec demo_adapter
                  (StepRequestModel.make (py "ab") 7 (py "argmax") None None None) 0
                  eq_refl)).
  split; [simpl; lia|]. split; [simpl; unfold MAX_PAYLOAD_SIZE; lia|].
  exists demo_logits. split; [reflexivity|].
  unfold main.clamp_top_k, main.TOP_K_MIN, main.TOP_K_MAX, demo_logits. simpl. lia.
Defined.

(** ** The chosen token, in every mode *)

Lemma choose_mode_cases (T : Torch) (self : HuggingFaceAdapter.t) (logits : list R)
    (mode : pystr) (k : Z) (temperature top_p : option R) (g : Generator)
    (chosen : TokenDict.t) :
  choose self logits mode k temperature top_p g = inr chosen ->
  mode = py "argmax" \/ mode = py "stochastic".
Proof.
  intros Hc.
  destruct (list_eq_dec N.eq_dec mode (py "argmax")) as [Ha|Ha]; [now left|].
  destruct (list_eq_dec N.eq_dec mode (py "stochastic")) as [Hs|Hs]; [now right|].
  rewrite (choose_unsupported T self logits mode k temperature top_p g Ha Hs) in Hc.
  discriminate.
Qed.

Lemma nucleus_filter_bounds (T : Torch) (torch_ok : TorchSpec T) (probs : list R)
    (top_p : R) (filtered : list R) :
  probs <> [] ->
  Forall (fun p => 0 < p) probs ->
  nucleus_filter probs top_p = inr filtered ->
  List.length filtered = List.length probs /\
  Forall (fun x => 0 <= x) filtered /\ Rsum filtered = 1.
Proof.
  intros Hne Hpos Hf.
  destruct (nucleus_filter_prefix T torch_ok probs top_p Hne Hpos)
    as [n [filtered' [Hn [Hf' [Hflen [Hkept [Hcut [Hsum _]]]]]]]].
  assert (filtered' = filtered) by congruence. subst filtered'.
  split; [exact Hflen|]. split; [|exact Hsum].
  pose proof (sort_permutation _ torch_ok probs) as Hperm.
  set (sorted := torch_sort_descending probs) in *.
  assert (Hsp : Forall (fun p => 0 < p) (map fst sorted)).
  { rewrite Forall_forall. intros v Hv. apply in_map_iff in Hv as [[v' i] [Heq Hin]].
    simpl in Heq; subst v'.
    apply (Permutation_in _ Hperm), in_enumerate, nth_error_In in Hin.
    rewrite Forall_forall in Hpos. now apply Hpos. }
  assert (Hmass : 0 < Rsum (map fst (firstn n sorted))).
  { apply Rsum_pos.
    - rewrite <- firstn_map. rewrite Forall_forall in *. intros v Hv.
      apply Hsp. rewrite <- (firstn_skipn n (map fst sorted)).
      apply in_or_app. now left.
    - intros Hnil. apply (f_equal (@List.length R)) in Hnil.
      rewrite length_map, length_firstn, (Permutation_length Hperm), enumerate_length
        in Hnil. simpl in Hnil. lia. }
  apply Forall_forall. intros x Hx. apply In_nth_error in Hx. destruct Hx as [i Hi].
  assert (Hlt : (i < List.length probs)%nat)
    by (rewrite <- Hflen; apply nth_error_Some; congruence).
  destruct (nth_error probs i) as [v|] eqn:Hv; [|apply nth_error_None in Hv; lia].
  assert (Hin : In (v, i) sorted).
  { apply (Permutation_in _ (Permutation_sym Hperm)). now apply in_enumerate. }
  assert (Hvpos : 0 < v).
  { rewrite Forall_forall in Hpos. apply Hpos. eapply nth_error_In. exact Hv. }
  rewrite <- (firstn_skipn n sorted) in Hin. apply in_app_or in Hin.
  destruct Hin as [Hin|Hin].
  - apply Hkept in Hin. rewrite Hin in Hi. inversion Hi. left.
    now apply Rdiv_lt_0_compat.
  - apply Hcut in Hin. rewrite Hin in Hi. inversion Hi. lra.
Qed.

(** What [choose] returns, whatever the mode. *)
Lemma choose_fields (T : Torch) (torch_ok : TorchSpec T) (self : HuggingFaceAdapter.t)
    (logits : list R) (mode : pystr) (k : Z) (temperature top_p : option R)
    (g : Generator) (chosen : TokenDict.t) :
  choose self logits mode k temperature top_p g = inr chosen ->
  (TokenDict.token_id chosen < List.length logits)%nat /\
  TokenDict.token_text chosen = HuggingFaceAdapter.decode self (TokenDict.token_id chosen) /\
  TokenDict.token_text_raw chosen
    = HuggingFaceAdapter.decode self (TokenDict.token_id chosen) /\
  0 <= TokenDict.prob chosen <= 1.
Proof.
  intros Hc. destruct (choose_mode_cases T self logits mode k _ _ g chosen Hc) as [->| ->].
  - apply choose_argmax_entry in Hc. destruct Hc as [Hn [Hf _]].
    split; [rewrite <- log_softmax_length; apply nth_error_Some; congruence|].
    split; [rewrite Hf at 1; reflexivity|]. split; [rewrite Hf at 1; reflexivity|].
    replace (TokenDict.prob chosen) with (exp (TokenDict.logprob chosen))
      by (rewrite Hf at 2; reflexivity).
    split; [left; apply exp_pos|].
    apply log_softmax_nonpos in Hn. rewrite <- exp_0. apply Rge_le, exp_ge. lra.
  - set (probs := softmax (map (fun x => x / effective_temperature temperature) logits)).
    assert (Hlen : List.length probs = List.length logits)
      by (unfold probs; now rewrite softmax_length, length_map).
    assert (Htext : TokenDict.token_text chosen
                    = HuggingFaceAdapter.decode self (TokenDict.token_id chosen)).
    { revert Hc. unfold choose.
      replace (pystr_eqb (py "stochastic") (py "argmax")) with false by reflexivity.
      replace (pystr_eqb (py "stochastic") (py "stochastic")) with true by reflexivity.
      destruct (match top_p with Some p => _ | None => _ end) as [e|final];
        [discriminate|].
      simpl. destruct (torch_multinomial g final) as [e|idx]; [discriminate|]. simpl.
      destruct (index final idx) as [e|v]; [discriminate|]. simpl.
      intros H. inversion H. reflexivity. }
    destruct (choose_stochastic_inv T self logits k temperature top_p g chosen Hc)
      as [final [Hfinal [_ [Hprob [_ [_ Hraw]]]]]].
    fold probs in Hfinal.
    assert (Hdist : List.length final = List.length probs /\
                    Forall (fun x => 0 <= x) final /\ Rsum final = 1).
    { assert (Hne : probs <> []).
      { intros Hnil. rewrite Hnil in Hfinal.
        assert (Hempty : final = []).
        { destruct top_p as [p|]; [|now inversion Hfinal].
          destruct (Rlt_dec p 1.0); [|now inversion Hfinal].
          unfold nucleus_filter in Hfinal.
          assert (Hsort : torch_sort_descending [] = []).
          { apply Permutation_nil. symmetry. apply (sort_permutation _ torch_ok []). }
          rewrite Hsort in Hfinal. discriminate. }
        subst final. destruct (TokenDict.token_id chosen); discriminate. }
      assert (Hplain : List.length probs = List.length probs /\
                       Forall (fun x => 0 <= x) probs /\ Rsum probs = 1).
      { split; [reflexivity|]. split.
        - eapply Forall_impl; [|apply softmax_pos]. intros; simpl in *; lra.
        - apply softmax_normalised. intros H. apply map_eq_nil in H.
          apply Hne. unfold probs. now rewrite H. }
      destruct top_p as [p|]; [|inversion Hfinal; subst; exact Hplain].
      destruct (Rlt_dec p 1.0); [|inversion Hfinal; subst; exact Hplain].
      apply (nucleus_filter_bounds T torch_ok probs p final Hne (softmax_pos _) Hfinal). }
    destruct Hdist as [Hflen [Hnonneg Hsum]].
    split; [rewrite <- Hlen, <- Hflen; apply nth_error_Some; congruence|].
    split; [exact Htext|]. split; [exact Hraw|].
    split.
    + rewrite Forall_forall in Hnonneg. apply Hnonneg. eapply nth_error_In. exact Hprob.
    + rewrite <- Hsum. apply (Rsum_ge_member final _ _ Hnonneg Hprob).
Qed.

(** X13. The chosen token of a successful step, in either mode: its id is
    an index of the logits, its text is the decoding of that id and is what
    [append_text] holds, its probability lies in [0, 1], and the ranking of
    the response contains no token id twice. *)
Theorem step_chosen_token (T : Torch) (torch_ok : TorchSpec T)
    (self : HuggingFaceAdapter.t) (request : StepRequestModel.t) (g : Generator)
    (body : StepResponseModel.t) (trace : list Call) :
  step (Some self) request g = (Success body, trace) ->
  let chosen := StepResponseModel.chosen body in
  (StepRequestModel.mode request = py "argmax" \/
   StepRequestModel.mode request = py "stochastic") /\
  (exists logits,
     forward_last self (step_ids self request)
       (StepRequestModel.soften_newline_eot request) = inr logits /\
     (TokenInfoModel.token_id chosen < List.length logits)%nat) /\
  StepResponseModel.append_text body
    = HuggingFaceAdapter.decode self (TokenInfoModel.token_id chosen) /\
  TokenInfoModel.token_text chosen = StepResponseModel.append_text body /\
  0 <= TokenInfoModel.prob chosen <= 1 /\
  NoDup (map TokenInfoModel.token_id (StepResponseModel.topk body)).
Proof.
  intros Hstep chosen'.
  destruct (step_success_inv self request g body trace Hstep)
    as [logits [ranking [chosen [_ [_ [Hf [Ht [Hc [Hbody _]]]]]]]]].
  pose proof (choose_mode_cases T self logits _ _ _ _ g chosen Hc) as Hmode.
  destruct (choose_fields T torch_ok self logits _ _ _ _ g chosen Hc)
    as [Hid [Htext [Hraw Hprob]]].
  unfold chosen'. subst body. simpl.
  split; [exact Hmode|]. split; [now exists logits|].
  split; [exact Hraw|]. split; [congruence|]. split; [exact Hprob|].
  rewrite of_dict_ids. apply merge_chosen_NoDup.
  apply (topk_ids_distinct T torch_ok self logits _ ranking Ht).
Qed.

Lemma step_chosen_token_witness :
  exists body trace,
    @step stable_torch (Some demo_adapter)
      (StepRequestModel.make (py "ab") 3 (py "argmax") None None None) 0
    = (Success body, trace) /\
    StepResponseModel.append_text body
      = [N.of_nat (TokenInfoModel.token_id (StepResponseModel.chosen body))] /\
    NoDup (map TokenInfoModel.token_id (StepResponseModel.topk body)).
Proof.
  destruct (demo_step_succeeds (py "ab") 3 None) as [body [trace Hstep]];
    [lia|simpl; unfold MAX_PAYLOAD_SIZE; lia|reflexivity|].
  exists body, trace. split; [exact Hstep|].
  destruct (step_chosen_token stable_torch stable_torch_spec demo_adapter
              (StepRequestModel.make (py "ab") 3 (py "argmax") None None None) 0
              body trace Hstep) as [_ [_ [Happend [_ [_ Hnd]]]]].
  split; [exact Happend|exact Hnd].
Defined.

(** ** [/next_dist] and [/step] on the same context *)




(** ** [/healthz] *)

(** X15. [/healthz] answers 503 exactly when the adapter has not been
    loaded, which is when [/step] answers that the adapter is not
    initialized without calling anything; and when a step succeeds,
    [/healthz] reports the model name, the vocabulary size and the contract
    version that the step puts in its response. *)
Theorem healthz_agrees_with_step (T : Torch) (adapter : option HuggingFaceAdapter.t)
    (request : StepRequestModel.t) (g : Generator) :
  (adapter = None <-> exists message hint, healthz adapter = JSONResponse 503 message hint) /\
  (adapter = None <-> step adapter request g = (not_initialized, [])) /\
  (forall body trace,
     step adapter request g = (Success body, trace) ->
     exists health,
       healthz adapter = Success health /\
       HealthModel.model_name health
         = ModelInfoModel.model_name (StepResponseModel.model_info body) /\
       HealthModel.vocab_size health
         = ModelInfoModel.vocab_size (StepResponseModel.model_info body) /\
       HealthModel.contract_version health = StepResponseModel.contract_version body).
Proof.
  split; [|split].
  - destruct adapter as [self|]; simpl; split; try discriminate.
    + intros [message [hint H]]. discriminate.
    + intros _. do 2 eexists. reflexivity.
    + reflexivity.
  - destruct adapter as [self|]; [|split; reflexivity].
    split; [discriminate|]. intros H. exfalso. revert H. unfold step.
    destruct (StepRequestModel.top_k request <? 1)%Z; [discriminate|].
    destruct (MAX_PAYLOAD_SIZE <? _)%Z; [discriminate|].
    unfold call, tbind, tret, ret. cbv beta iota.
    destruct (forward_last self _ _) as [e|logits]; [destruct e; discriminate|].
    destruct (topk self logits _) as [e|ranking]; [destruct e; discriminate|].
    destruct (choose self logits _ _ _ _ g) as [e|chosen]; [destruct e; discriminate|].
    discriminate.
  - intros body trace Hstep. destruct adapter as [self|]; [|discriminate].
    destruct (step_success_inv self request g body trace Hstep)
      as [logits [ranking [chosen [_ [_ [_ [_ [_ [Hbody _]]]]]]]]].
    subst body. eexists. split; [reflexivity|]. repeat split.
Qed.

(** ** The soft bias on an id outside the logits *)




(** ** The response of [/next_dist] *)



(** ** A greedy step and the sampling parameters *)

(** X18. A greedy step does not depend on the temperature, on the
    threshold or on the state of the random generator: two greedy requests
    that differ only in these give the same response and the same calls. *)
Theorem step_greedy_ignores_sampling (T : Torch) (adapter : option HuggingFaceAdapter.t)
    (context_text : pystr) (top_k : Z) (soften : option bool)
    (temperature temperature' top_p top_p' : option R) (g g' : Generator) :
  step adapter
    (StepRequestModel.make context_text top_k (py "argmax") temperature top_p soften) g
  = step adapter
      (StepRequestModel.make context_text top_k (py "argmax") temperature' top_p' soften) g'.
Proof.
  destruct adapter as [self|]; [|reflexivity].
  unfold step. cbn [StepRequestModel.top_k StepRequestModel.context_text
                    StepRequestModel.mode StepRequestModel.soften_newline_eot
                    StepRequestModel.temperature StepRequestModel.top_p].
  replace (pystr_eqb (py "argmax") (py "stochastic")) with false by reflexivity.
  cbv iota.
  assert (Hchoose : forall logits k,
            choose self logits (py "argmax") k None None g
            = choose self logits (py "argmax") k None None g').
  { intros logits k. unfold choose.
    replace (pystr_eqb (py "argmax") (py "argmax")) with true by reflexivity.
    reflexivity. }
  destruct (top_k <? 1)%Z; [reflexivity|].
  destruct (MAX_PAYLOAD_SIZE <? _)%Z; [reflexivity|].
  unfold call, tbind, tret, ret. cbv beta iota.
  destruct (forward_last self _ soften) as [e|logits]; [reflexivity|].
  destruct (topk self logits _) as [e|ranking]; [reflexivity|].
  rewrite (Hchoose logits). reflexivity.
Qed.

(** ** A sampled token that the ranking does not hold *)






